(** * The diagram sanitizer of [backend/app/routers/modify.py]

    A shallow embedding of [clean_invalid_class_statements] and of the
    Python primitives it calls ([str.split], [str.strip], [str.join],
    [str.startswith], [str.replace], [in], [re.match], [Match.group]),
    of the request handler [modify] that calls it and of [GeminiService]
    in [backend/app/services/gemini_service.py], followed by the properties
    the specification states about the sanitizer and by further properties
    of the three. *)

From Stdlib Require Import NArith ZArith String Ascii List Lia.
From stdpp Require Import base list gmap strings.

(** ** Python strings

    A Python [str] is a sequence of Unicode code points; a code point is
    modelled as an [N]. *)

Abbreviation str := (list N).

(** An ASCII literal of the source, as a [str]. *)
Definition lit (s : string) : str :=
  map N_of_ascii (list_ascii_of_string s).

Definition chr (a : ascii) : N := N_of_ascii a.
Arguments chr a%_char.

(** The double-quote character, code point 0x22. *)
Definition dquote : N := 0x22%N.

Module Py.

(** [str.isspace] for one character, the set that both [str.strip()] and
    the [\s] of [re] (on [str] patterns) use: CPython's
    [Py_UNICODE_ISSPACE]. *)
Definition isspace (c : N) : bool :=
  ((0x09 <=? c) && (c <=? 0x0D) || (0x1C <=? c) && (c <=? 0x20)
   || (c =? 0x85) || (c =? 0xA0) || (c =? 0x1680)
   || (0x2000 <=? c) && (c <=? 0x200A)
   || (c =? 0x2028) || (c =? 0x2029) || (c =? 0x202F)
   || (c =? 0x205F) || (c =? 0x3000))%N.

(** [c in chars] for a character [c]. *)
Definition mem (chars : str) (c : N) : bool :=
  existsb (N.eqb c) chars.

(** The longest prefix whose characters satisfy [p], and what follows. *)
Fixpoint take_while (p : N → bool) (s : str) : str :=
  match s with
  | c :: s' => if p c then c :: take_while p s' else []
  | [] => []
  end.

Fixpoint drop_while (p : N → bool) (s : str) : str :=
  match s with
  | c :: s' => if p c then drop_while p s' else s
  | [] => []
  end.

(** [s.lstrip()], [s.rstrip()], [s.strip()], over a character set [p]. *)
Definition lstrip_with (p : N → bool) (s : str) : str := drop_while p s.
Definition rstrip_with (p : N → bool) (s : str) : str :=
  rev (drop_while p (rev s)).
Definition strip_with (p : N → bool) (s : str) : str :=
  rstrip_with p (lstrip_with p s).

(** [s.strip()]: whitespace removed at both ends. *)
Definition strip (s : str) : str := strip_with isspace s.

(** [s.strip(chars)]: the characters of [chars] removed at both ends. *)
Definition strip_chars (chars : str) (s : str) : str :=
  strip_with (mem chars) s.

(** [s.split(sep)] for a separator of one character. *)
Fixpoint split (sep : N) (s : str) : list str :=
  match s with
  | [] => [[]]
  | c :: s' =>
      if (c =? sep)%N then [] :: split sep s'
      else match split sep s' with
           | piece :: pieces => (c :: piece) :: pieces
           | [] => [[c]]
           end
  end.

(** [sep.join(pieces)] for a separator of one character. *)
Fixpoint join (sep : N) (pieces : list str) : str :=
  match pieces with
  | [] => []
  | [piece] => piece
  | piece :: pieces' => piece ++ sep :: join sep pieces'
  end.

(** [s.startswith(prefix)]. *)
Fixpoint startswith (prefix s : str) : bool :=
  match prefix, s with
  | [], _ => true
  | a :: prefix', c :: s' => (a =? c)%N && startswith prefix' s'
  | _ :: _, [] => false
  end.

(** [s.replace(old, empty)] for [old] of one character: every occurrence
    is deleted. *)
Definition remove_char (old : N) (s : str) : str :=
  List.filter (λ c, negb (c =? old)%N) s.

(** [sub in s] for [sub] of one character. *)
Definition contains (sub : N) (s : str) : bool := mem s sub.

(** Truth value of a string: the empty string is false. *)
Definition truthy (s : str) : bool :=
  match s with [] => false | _ :: _ => true end.

(** Exceptions the primitives used here can raise. *)
Inductive exn := AttributeError | IndexError.

Inductive result (A : Type) :=
| Ok (a : A)
| Raise (e : exn).
Arguments Ok {A} a.
Arguments Raise {A} e.

#[global] Instance result_ret : MRet result := λ A a, Ok a.
#[global] Instance result_bind : MBind result := λ A B f m,
  match m with
  | Ok a => f a
  | Raise e => Raise e
  end.

(** [for x in xs: state = body(state, x)]. *)
Fixpoint for_each {S A} (body : S → A → result S) (xs : list A) (s : S)
  : result S :=
  match xs with
  | [] => mret s
  | x :: xs' => s' ← body s x; for_each body xs' s'
  end.

End Py.

(** ** The fragment of [re] the three patterns use *)

Module Re.
Import Py.

Inductive regex :=
| Lit (t : str)                  (* literal text *)
| One (p : N → bool)             (* one character of a class *)
| Star (p : N → bool)            (* class*, greedy *)
| Plus (p : N → bool)            (* class+, greedy *)
| Cat (r1 r2 : regex)            (* r1 r2 *)
| Group (n : nat) (r : regex).   (* capturing group number n *)

(** A match object: its groups, group 0 being the whole match. *)
Record Match := { groups : gmap nat str }.

(** Greedy repetition with backtracking: the longest run is tried first,
    then one character fewer, down to none. *)
Fixpoint greedy {A} (p : N → bool) (s : str) (k : str → option A)
  : option A :=
  match s with
  | c :: s' =>
      if p c then
        match greedy p s' k with
        | Some m => Some m
        | None => k s
        end
      else k s
  | [] => k s
  end.

(** Backtracking matcher in continuation-passing style: [k] receives the
    text that remains and the groups captured so far. *)
Fixpoint run {A} (r : regex) (s : str) (caps : gmap nat str)
  (k : str → gmap nat str → option A) : option A :=
  match r with
  | Lit t => if startswith t s then k (drop (length t) s) caps else None
  | One p =>
      match s with
      | c :: s' => if p c then k s' caps else None
      | [] => None
      end
  | Star p => greedy p s (λ s', k s' caps)
  | Plus p =>
      match s with
      | c :: s' => if p c then greedy p s' (λ s'', k s'' caps) else None
      | [] => None
      end
  | Cat r1 r2 => run r1 s caps (λ s' caps', run r2 s' caps' k)
  | Group n r =>
      run r s caps
        (λ s' caps', k s' (<[n := take (length s - length s') s]> caps'))
  end.

(** [re.match(pattern, s)]: anchored at the start of [s]; [None] when the
    pattern does not match. *)
Definition re_match (r : regex) (s : str) : option Match :=
  run r s ∅
    (λ s' caps,
       Some {| groups := <[0 := take (length s - length s') s]> caps |}).

(** [m.group(n)] on the value [re.match] returned: on [None] the attribute
    access raises, on a match object an unknown group number raises. *)
Definition group (m : option Match) (n : nat) : result str :=
  match m with
  | None => Raise AttributeError
  | Some m =>
      match groups m !! n with
      | Some g => Ok g
      | None => Raise IndexError
      end
  end.

(** [if m:] on the value [re.match] returned; match objects are true. *)
Definition matched (m : option Match) : bool :=
  match m with Some _ => true | None => false end.

End Re.

(** ** [clean_invalid_class_statements] *)

Import Py Re.

Definition is_upper (c : N) : bool := ((0x41 <=? c) && (c <=? 0x5A))%N.
Definition is_lower (c : N) : bool := ((0x61 <=? c) && (c <=? 0x7A))%N.
Definition is_digit (c : N) : bool := ((0x30 <=? c) && (c <=? 0x39))%N.
Definition underscore : N := 0x5F%N.

(** The classes [A-Za-z_] and [A-Za-z0-9_]. *)
Definition id_start (c : N) : bool :=
  is_upper c || is_lower c || (c =? underscore)%N.
Definition id_char (c : N) : bool :=
  is_upper c || is_lower c || is_digit c || (c =? underscore)%N.

(** The negated classes: any character but the double quote, and any
    character but [;] and [:]. *)
Definition not_dquote (c : N) : bool := negb (c =? dquote)%N.
Definition not_terminator (c : N) : bool :=
  negb ((c =? chr ";") || (c =? chr ":"))%N.

(** The pattern [subgraph\s+(ID)] with ID = [A-Za-z_] then [A-Za-z0-9_]
    repeated greedily, zero or more times. *)
Definition subgraph_explicit_re : regex :=
  Cat (Lit (lit "subgraph"))
    (Cat (Plus isspace) (Group 1 (Cat (One id_start) (Star id_char)))).

(** The pattern [subgraph\s+Q(LABEL)Q] with Q the double quote and LABEL
    one or more characters other than Q. *)
Definition subgraph_label_re : regex :=
  Cat (Lit (lit "subgraph"))
    (Cat (Plus isspace)
       (Cat (Lit [dquote]) (Cat (Group 1 (Plus not_dquote)) (Lit [dquote])))).

(** The pattern [class\s+(CLAUSE)] with CLAUSE one or more characters
    other than [;] and [:]. *)
Definition class_re : regex :=
  Cat (Lit (lit "class")) (Cat (Plus isspace) (Group 1 (Plus not_terminator))).

Definition newline : N := 0x0A%N.

(** The body of the first loop: one line's contribution to [subgraph_ids]. *)
Definition first_pass_body (subgraph_ids : gset str) (line : str)
  : result (gset str) :=
  let line_stripped := strip line in
  let subgraph_explicit_match := re_match subgraph_explicit_re line_stripped in
  subgraph_ids ←
    (if matched subgraph_explicit_match then
       g ← group subgraph_explicit_match 1;
       mret (subgraph_ids ∪ {[ g ]})
     else mret subgraph_ids);
  let subgraph_label_match := re_match subgraph_label_re line_stripped in
  if matched subgraph_label_match then
    label ← group subgraph_label_match 1;
    let subgraph_ids := subgraph_ids ∪ {[ label ]} in
    let sanitized := remove_char (chr "'") (remove_char (chr " ") label) in
    if truthy sanitized then mret (subgraph_ids ∪ {[ sanitized ]})
    else mret subgraph_ids
  else mret subgraph_ids.

(** The body of the second loop: [cleaned_lines] after one more line. *)
Definition second_pass_body (subgraph_ids : gset str)
  (cleaned_lines : list str) (line : str) : result (list str) :=
  if startswith (lit "class ") (strip line) then
    let class_match := re_match class_re (strip line) in
    if matched class_match then
      g ← group class_match 1;
      let ids_string := strip g in
      let ids :=
        map (λ id, strip_chars [dquote; chr "'"] (strip id))
          (split (chr ",") ids_string) in
      let has_subgraph_id :=
        existsb
          (λ id, bool_decide (id ∈ subgraph_ids)
                 || contains (chr " ") id || contains (chr "'") id)
          ids in
      if has_subgraph_id then mret cleaned_lines
      else mret (cleaned_lines ++ [line])
    else mret (cleaned_lines ++ [line])
  else mret (cleaned_lines ++ [line]).

Definition clean_invalid_class_statements (diagram : str) : result str :=
  let lines := split newline diagram in
  subgraph_ids ← for_each first_pass_body lines ∅;
  cleaned_lines ← for_each (second_pass_body subgraph_ids) lines [];
  mret (join newline cleaned_lines).

(** Scenario A of the specification. *)
Definition scenario_A : str :=
  join newline
    [lit "subgraph API"; lit "A-->B"; lit "end";
     lit "class API,A fill:#f9f"; lit "class A fill:#bbf"].

(** ** What the three patterns capture, as plain functions *)

(** The text after [kw] and the whitespace that follows it, when [s] starts
    with [kw] and at least one whitespace character. *)
Definition after_keyword (kw s : str) : option str :=
  if startswith kw s then
    match drop (length kw) s with
    | c :: r => if isspace c then Some (drop_while isspace r) else None
    | [] => None
    end
  else None.

(** Group 1 of [subgraph_explicit_re]: the longest bareword. *)
Definition explicit_id (s : str) : option str :=
  match after_keyword (lit "subgraph") s with
  | Some (c :: t) => if id_start c then Some (c :: take_while id_char t) else None
  | _ => None
  end.

(** Group 1 of [subgraph_label_re]: the text between the double quotes. *)
Definition quoted_label (s : str) : option str :=
  match after_keyword (lit "subgraph") s with
  | Some (q :: c :: t) =>
      if (q =? dquote)%N && not_dquote c then
        match drop_while not_dquote t with
        | _ :: _ => Some (c :: take_while not_dquote t)
        | [] => None
        end
      else None
  | _ => None
  end.

(** Group 1 of [class_re].  When the whitespace after [class] is followed by
    a terminator (or by nothing), the greedy [\s+] gives one character back
    and the group is that single whitespace character. *)
Definition class_clause (s : str) : option str :=
  if startswith (lit "class") s then
    match drop (length (lit "class")) s with
    | c :: r =>
        if isspace c then
          match take_while not_terminator (drop_while isspace r) with
          | d :: clause => Some (d :: clause)
          | [] =>
              match last (take_while isspace r) with
              | Some w => Some [w]
              | None => None
              end
          end
        else None
    | [] => None
    end
  else None.

(** One line's contribution to the identifier set. *)
Definition line_ids (line : str) : gset str :=
  let s := strip line in
  match explicit_id s with Some g => {[ g ]} | None => ∅ end
  ∪ match quoted_label s with
    | Some label =>
        let sanitized := remove_char (chr "'") (remove_char (chr " ") label) in
        {[ label ]} ∪ (if truthy sanitized then {[ sanitized ]} else ∅)
    | None => ∅
    end.

(** The identifier set after the first loop. *)
Definition subgraph_ids_of (lines : list str) : gset str :=
  ⋃ (line_ids <$> lines).

(** The cleaned targets of a clause: its comma-separated pieces, trimmed of
    whitespace and then of surrounding quote characters. *)
Definition cleaned_targets (clause : str) : list str :=
  map (λ piece, strip_chars [dquote; chr "'"] (strip piece))
    (split (chr ",") clause).

(** A target that makes the statement invalid. *)
Definition bad_target (subgraph_ids : gset str) (id : str) : bool :=
  bool_decide (id ∈ subgraph_ids)
  || contains (chr " ") id || contains (chr "'") id.

(** The decision of the second loop for one line. *)
Definition keeps_line (subgraph_ids : gset str) (line : str) : bool :=
  if startswith (lit "class ") (strip line) then
    match class_clause (strip line) with
    | Some g => negb (existsb (bad_target subgraph_ids) (cleaned_targets (strip g)))
    | None => true
    end
  else true.

(** The whole function, without the exception plumbing. *)
Definition sanitize (diagram : str) : str :=
  let lines := split newline diagram in
  join newline
    (filter (λ line, keeps_line (subgraph_ids_of lines) line = true) lines).

(** The value [re.match] returns, seen through [matched] and [group 1]. *)
Definition captures (m : option Match) (g : option str) : Prop :=
  match g with
  | Some g => ∃ m', m = Some m' ∧ groups m' !! 1 = Some g
  | None => m = None
  end.

(** Following the specification's words: the targets clause of a trimmed
    class statement is the substring after [class] and its following
    whitespace, up to but not including the first [;] or [:], or the whole
    remainder when there is no terminator. *)
Definition targets_clause (stripped : str) : str :=
  take_while not_terminator
    (drop_while isspace (drop (length (lit "class")) stripped)).

(** A target that leaves the statement valid. *)
Definition good_target (subgraph_ids : gset str) (id : str) : Prop :=
  (id ∉ subgraph_ids) ∧ (chr " " ∉ id) ∧ (chr "'" ∉ id).

(** Following the specification's words: the label with every space and
    every single-quote character deleted. *)
Definition normalize_label (label : str) : str :=
  filter (λ c, c ≠ chr " " ∧ c ≠ chr "'") label.

(** Scenario B of the specification. *)
Definition scenario_B : str :=
  join newline
    [lit "subgraph " ++ dquote :: lit "My Service" ++ [dquote];
     lit "class MyService fill:#ccc"].

Definition is_terminator (c : N) : Prop := c = chr ";" ∨ c = chr ":".

(** Scenario E of the specification. *)
Definition scenario_E : str := lit "class X,Y; style X fill:#000".

(** ** The request handler [modify] and what it calls *)

(** [s.replace(old, new)] for a non-empty [old]: the occurrences of [old]
    are taken from the left and do not overlap.  [skip] counts the
    characters of an occurrence that remain to be passed over. *)
Fixpoint replace_from (old new : str) (skip : nat) (s : str) : str :=
  match s with
  | [] => []
  | c :: s' =>
      match skip with
      | S n => replace_from old new n s'
      | O =>
          if startswith old s
          then new ++ replace_from old new (length old - 1) s'
          else c :: replace_from old new 0 s'
      end
  end.

Definition replace (old new s : str) : str := replace_from old new 0 s.

(** [sub in s] for strings. *)
Fixpoint contains_sub (sub s : str) : bool :=
  startswith sub s
  || match s with
     | [] => false
     | _ :: s' => contains_sub sub s'
     end.

(** [len(s) > n]. *)
Definition longer_than (n : N) (s : str) : bool :=
  (n <? N.of_nat (length s))%N.

(** An exception caught by [except Exception as e]: its class and what
    [str(e)] gives. *)
Record exception := { exc_class : string; exc_str : str }.

(** [fastapi.HTTPException(status_code=..., detail=...)]. *)
Record HTTPException := { status_code : N; detail : str }.

Inductive outcome (E A : Type) :=
| Returns (a : A)
| Raises (e : E).
Arguments Returns {E A} a.
Arguments Raises {E A} e.

(** The two errors [Match.group] can raise, as caught exceptions. *)
Definition caught (e : exn) : exception :=
  match e with
  | AttributeError =>
      {| exc_class := "AttributeError";
         exc_str := lit "'NoneType' object has no attribute 'group'" |}
  | IndexError =>
      {| exc_class := "IndexError"; exc_str := lit "no such group" |}
  end.

(** The request body. *)
Record ModifyRequest := {
  instructions : str;
  current_diagram : str;
  repo : str;
  username : str;
  explanation : str }.

Definition example_repos : list str :=
  [lit "fastapi"; lit "streamlit"; lit "flask"; lit "api-analytics";
   lit "monkeytype"].

Definition fence : str := lit "```".

Definition rate_limit_detail : str :=
  lit "Service is currently experiencing high demand. Please try again in a few minutes.".

(** The body of the [try] block of [modify].  [SYSTEM_MODIFY_PROMPT] (of
    [app.prompts]) and the bound method [gemini_service.call_gemini_api],
    called with [system_prompt], [data] and [thinking_budget], are
    parameters. *)
Definition modify_try (SYSTEM_MODIFY_PROMPT : str)
  (call_gemini_api : str → gmap string str → Z → outcome exception str)
  (body : ModifyRequest) : outcome exception (gmap string str) :=
  if negb (truthy (instructions body)) || negb (truthy (current_diagram body))
  then
    Returns {[ "error" := lit "Instructions and/or current diagram are required" ]}
  else if longer_than 1000 (instructions body)
          || longer_than 100000 (current_diagram body)
  then
    Returns {[ "error" := lit "Instructions exceed maximum length of 1000 characters" ]}
  else if bool_decide (repo body ∈ example_repos)
  then Returns {[ "error" := lit "Example repos cannot be modified" ]}
  else
    match
      call_gemini_api SYSTEM_MODIFY_PROMPT
        (<[ "instructions" := instructions body ]>
           (<[ "explanation" := explanation body ]>
              {[ "diagram" := current_diagram body ]}))
        1000%Z
    with
    | Raises e => Raises e
    | Returns modified_mermaid_code =>
        if contains_sub (lit "BAD_INSTRUCTIONS") modified_mermaid_code
        then Returns {[ "error" := lit "Invalid or unclear instructions provided" ]}
        else
          let modified_mermaid_code :=
            strip (replace fence [] (replace (lit "```mermaid") [] modified_mermaid_code)) in
          match clean_invalid_class_statements modified_mermaid_code with
          | Ok modified_mermaid_code =>
              Returns {[ "diagram" := modified_mermaid_code ]}
          | Raise e => Raises (caught e)
          end
    end.

(** [modify]: the [try] block and its [except Exception as e] handler.
    [lower] is [str.lower]. *)
Definition modify (lower : str → str) (SYSTEM_MODIFY_PROMPT : str)
  (call_gemini_api : str → gmap string str → Z → outcome exception str)
  (body : ModifyRequest) : outcome HTTPException (gmap string str) :=
  match modify_try SYSTEM_MODIFY_PROMPT call_gemini_api body with
  | Returns response => Returns response
  | Raises e =>
      if contains_sub (lit "429") (exc_str e)
         || contains_sub (lit "rate limit") (lower (exc_str e))
      then Raises {| status_code := 429; detail := rate_limit_detail |}
      else Returns {[ "error" := exc_str e ]}
  end.

(** ** [GeminiService] *)

(** The part of the [google.genai] client the service uses.  A response is
    seen through its [text], which may be missing; a stream through the
    [text] of its chunks and the exception that ends it, if any. *)
Record genai := {
  Client : Type;
  new_Client : option str → Client;
  generate_content :
    Client → str → str → str → outcome exception (option str);
  generate_content_stream :
    Client → str → str → str → list (option str) * option exception;
  models_count_tokens : Client → str → str → outcome exception Z }.

Record GeminiService (G : genai) := {
  default_client : Client G;
  model : str }.
Arguments default_client {G} _.
Arguments model {G} _.

(** [__init__], with the value of [os.getenv] for the key. *)
Definition GeminiService_init (G : genai) (GEMINI_API_KEY : option str)
  : GeminiService G :=
  {| default_client := new_Client G GEMINI_API_KEY;
     model := lit "gemini-2.5-pro" |}.

(** Truth value of an optional string: [None] and the empty string are
    false. *)
Definition truthy_opt (s : option str) : bool :=
  match s with Some s => truthy s | None => false end.

Definition key_kind (api_key : option str) : str :=
  if truthy_opt api_key then lit "custom key" else lit "default key".

Definition select_client {G : genai} (self : GeminiService G)
  (api_key : option str) : Client G :=
  if truthy_opt api_key then new_Client G api_key else default_client self.

(** [call_gemini_api]: the lines printed, and the text returned or the
    exception raised.  [format_user_message] (of [app.utils]) is a
    parameter. *)
Definition call_gemini_api {G : genai}
  (format_user_message : gmap string str → str) (self : GeminiService G)
  (system_prompt : str) (data : gmap string str) (api_key : option str)
  (thinking_budget : Z) : list str * outcome exception str :=
  let user_message := format_user_message data in
  let client := select_client self api_key in
  let printed :=
    [lit "Making non-streaming API call to Gemini with API key: "
     ++ key_kind api_key] in
  let failed printed e :=
    (printed ++ [lit "Error in Google Gemini API call: " ++ exc_str e],
     Raises e) in
  match generate_content G client (model self) user_message system_prompt with
  | Raises e => failed printed e
  | Returns text =>
      let printed := printed ++ [lit "API call completed successfully"] in
      match text with
      | Some (c :: t) => (printed, Returns (c :: t))
      | _ =>
          failed printed
            {| exc_class := "ValueError";
               exc_str := lit "No content returned from Google Gemini" |}
      end
  end.

(** What a generator does, in order. *)
Inductive event :=
| Printed (line : str)
| Yielded (chunk : str).

(** The loop of [call_gemini_api_stream]: a chunk is yielded when its text
    is not empty. *)
Fixpoint yield_chunks (chunks : list (option str)) : list event :=
  match chunks with
  | [] => []
  | chunk :: chunks' =>
      if truthy_opt chunk then Yielded (default [] chunk) :: yield_chunks chunks'
      else yield_chunks chunks'
  end.

(** [call_gemini_api_stream]: the events of the generator, and the
    exception it ends with, if any. *)
Definition call_gemini_api_stream {G : genai}
  (format_user_message : gmap string str → str) (self : GeminiService G)
  (system_prompt : str) (data : gmap string str) (api_key : option str)
  (thinking_budget : Z) : list event * option exception :=
  let user_message := format_user_message data in
  let client := select_client self api_key in
  let '(chunks, failure) :=
    generate_content_stream G client (model self) user_message system_prompt in
  (Printed (lit "Making streaming API call to Gemini with API key: "
            ++ key_kind api_key)
   :: yield_chunks chunks
   ++ match failure with
      | Some e =>
          [Printed (lit "Error in Google Gemini streaming API call: "
                    ++ exc_str e)]
      | None => []
      end,
   failure).

(** [count_tokens]: the lines printed and the count returned. *)
Definition count_tokens {G : genai} (self : GeminiService G) (prompt : str)
  : list str * Z :=
  match models_count_tokens G (default_client self) (model self) prompt with
  | Returns total_tokens => ([], total_tokens)
  | Raises e =>
      ([lit "Error counting tokens: " ++ exc_str e],
       (Z.of_nat (length prompt) / 4)%Z)
  end.

(** The texts a generator yielded. *)
Definition yielded (events : list event) : list str :=
  omap (λ e, match e with Yielded chunk => Some chunk | Printed _ => None end)
    events.

(** [str.lower] on an ASCII character. *)
Definition ascii_lower (c : N) : N :=
  if is_upper c then (c + 0x20)%N else c.

Definition is_ascii (s : str) : Prop := Forall (λ c, (c < 0x80)%N) s.

(** A character that is neither whitespace, nor a quote, nor a comma. *)
Definition solid (c : N) : bool :=
  negb (isspace c || (c =? dquote)%N || (c =? chr "'")%N || (c =? chr ",")%N).

(** The backtick, of which a fence has three. *)
Definition tick : N := chr "`".

(** The checks [modify] makes before it calls the model. *)
Definition passes_validation (body : ModifyRequest) : Prop :=
  instructions body ≠ [] ∧ current_diagram body ≠ []
  ∧ (N.of_nat (length (instructions body)) ≤ 1000)%N
  ∧ (N.of_nat (length (current_diagram body)) ≤ 100000)%N
  ∧ repo body ∉ example_repos.

(** The [data] dictionary [modify] passes to the model. *)
Definition modify_data (body : ModifyRequest) : gmap string str :=
  <[ "instructions" := instructions body ]>
    (<[ "explanation" := explanation body ]>
       {[ "diagram" := current_diagram body ]}).

(** The text of the model with the fences removed, as [modify] hands it to
    the sanitizer. *)
Definition unfenced (text : str) : str :=
  strip (replace fence [] (replace (lit "```mermaid") [] text)).

(** The messages of the checks, in the order they are made. *)
Definition validation_errors : list str :=
  [lit "Instructions and/or current diagram are required";
   lit "Instructions exceed maximum length of 1000 characters";
   lit "Example repos cannot be modified"].

(** The test of the [except] handler on [str(e)]. *)
Definition rate_limited (lower : str → str) (message : str) : bool :=
  contains_sub (lit "429") message
  || contains_sub (lit "rate limit") (lower message).

Definition too_many_requests : HTTPException :=
  {| status_code := 429; detail := rate_limit_detail |}.

(** [modify] calls the service without an [api_key]. *)
Definition service_call {G : genai}
  (format_user_message : gmap string str → str) (self : GeminiService G)
  : str → gmap string str → Z → outcome exception str :=
  λ system_prompt data thinking_budget,
    (call_gemini_api format_user_message self system_prompt data None
       thinking_budget).2.

(** A request and a reply of the model, for examples. *)
Definition sample_request : ModifyRequest :=
  {| instructions := lit "add a cache node";
     current_diagram := lit "flowchart TD";
     repo := lit "gitdiagram";
     username := lit "ach-raf";
     explanation := lit "a small service" |}.

Definition sample_reply : str :=
  join newline
    [lit "```mermaid"; lit "flowchart TD"; lit "  A-->B";
     lit "  class A;"; lit "```"].

(** A client for examples: it answers every request with [sample_reply],
    streams it in three chunks and cannot count tokens. *)
Definition sample_genai : genai :=
  {| Client := unit;
     new_Client := λ _, tt;
     generate_content := λ _ _ _ _, Returns (Some sample_reply);
     generate_content_stream :=
       λ _ _ _ _, ([Some (lit "flowchart TD"); None; Some []; Some (lit " A-->B")],
                   None);
     models_count_tokens :=
       λ _ _ _, Raises {| exc_class := "ClientError";
                          exc_str := lit "503 unavailable" |} |}.

Definition no_content : exception :=
  {| exc_class := "ValueError";
     exc_str := lit "No content returned from Google Gemini" |}.

(** ** Lists of characters *)

Section chars.
Variable p : N → bool.

Lemma take_drop_while (s : str) : take_while p s ++ drop_while p s = s.
Proof.
  induction s as [|c s IH]; simpl; [done|].
  destruct (p c); simpl; [by rewrite IH | done].
Qed.

Lemma take_while_all (s : str) : Forall (λ c, p c = true) (take_while p s).
Proof.
  induction s as [|c s IH]; simpl; [constructor|].
  destruct (p c) eqn:E; constructor; done.
Qed.

Lemma drop_while_head (s : str) c t :
  drop_while p s = c :: t → p c = false.
Proof.
  induction s as [|d s IH]; simpl; [done|].
  destruct (p d) eqn:E; [done|]. intros [= -> _]. done.
Qed.

Lemma take_while_length (s : str) :
  take (length s - length (drop_while p s)) s = take_while p s.
Proof.
  rewrite <- (take_drop_while s) at 1 3.
  rewrite length_app.
  replace (_ + _ - _) with (length (take_while p s)) by lia.
  by rewrite take_app_length.
Qed.

Lemma drop_while_all (s t : str) :
  Forall (λ c, p c = true) s → drop_while p (s ++ t) = drop_while p t.
Proof. induction 1 as [|c s Hc _ IH]; simpl; [done|]. by rewrite Hc. Qed.

Lemma drop_while_app_ne (s t : str) :
  drop_while p s ≠ [] → drop_while p (s ++ t) = drop_while p s ++ t.
Proof.
  induction s as [|c s IH]; simpl; [done|].
  destruct (p c); [done|]. done.
Qed.

Lemma drop_while_nil (s : str) :
  drop_while p s = [] → Forall (λ c, p c = true) s.
Proof.
  induction s as [|c s IH]; simpl; [constructor|].
  destruct (p c) eqn:E; [|done]. intros H. constructor; auto.
Qed.

End chars.

(** ** The matcher on the three patterns *)

Section greedy.
Context {A : Type} (p : N → bool) (k : str → option A).

(** When the continuation accepts what follows the longest run, that is
    the match. *)
Lemma greedy_longest (s : str) :
  k (drop_while p s) ≠ None → greedy p s k = k (drop_while p s).
Proof.
  induction s as [|c s IH]; simpl; [done|].
  destruct (p c); [|done]. intros H. rewrite (IH H).
  by destruct (k (drop_while p s)).
Qed.

(** When the continuation rejects every text that starts inside the run,
    giving characters back cannot help. *)
Lemma greedy_no_backtrack (s : str) :
  (∀ c t, p c = true → k (c :: t) = None) →
  greedy p s k = k (drop_while p s).
Proof.
  intros Hk. induction s as [|c s IH]; simpl; [done|].
  destruct (p c) eqn:E; [|done]. rewrite IH.
  destruct (k (drop_while p s)) eqn:E'; [done|]. by apply Hk.
Qed.

(** When the continuation rejects what follows the longest run but accepts
    every text that starts inside the run, exactly one character is given
    back. *)
Lemma greedy_one_back (s : str) :
  (∀ c t, p c = true → k (c :: t) ≠ None) →
  k (drop_while p s) = None →
  greedy p s k =
    match last (take_while p s) with
    | Some w => k (w :: drop_while p s)
    | None => None
    end.
Proof.
  intros Hk. induction s as [|c s IH]; simpl; [done|].
  destruct (p c) eqn:E; [|done]. intros Hn. rewrite (IH Hn).
  destruct (take_while p s) as [|d s1] eqn:E1.
  - simpl. pose proof (take_drop_while p s) as Hs.
    rewrite E1 in Hs. simpl in Hs. by rewrite Hs.
  - change (last (c :: d :: s1)) with (last (d :: s1)).
    destruct (last (d :: s1)) as [w|] eqn:El.
    + destruct (k (w :: drop_while p s)) eqn:Ek; [done|].
      exfalso. apply (Hk w (drop_while p s)); [|done].
      pose proof (take_while_all p s) as Hall. rewrite E1 in Hall.
      rewrite Forall_forall in Hall. apply Hall.
      by apply last_Some_elem_of.
    + by rewrite last_None in El.
Qed.

End greedy.

Lemma captures_group m g x : captures m (Some g) → group m 1 = Ok x → x = g.
Proof. intros (m' & -> & H). simpl. rewrite H. by intros [= ->]. Qed.

Lemma captures_group_ok m g : captures m (Some g) → group m 1 = Ok g.
Proof. intros (m' & -> & H). simpl. by rewrite H. Qed.

Lemma take_while_length_cons p (c : N) (t : str) :
  take (length (c :: t) - length (drop_while p t)) (c :: t)
  = c :: take_while p t.
Proof.
  pose proof (take_drop_while p t) as H.
  assert (length (drop_while p t) ≤ length t) as Hle.
  { rewrite <- H at 2. rewrite length_app. lia. }
  simpl length. replace (S (length t) - length (drop_while p t))
    with (S (length t - length (drop_while p t))) by lia.
  simpl. by rewrite take_while_length.
Qed.

Lemma id_start_not_space c : id_start c = true → isspace c = false.
Proof.
  unfold id_start, is_upper, is_lower, underscore, isspace. intros H.
  repeat (apply orb_true_iff in H as [H|H] || apply andb_true_iff in H as [? ?]);
    repeat match goal with
      | H : (_ <=? _)%N = true |- _ => apply N.leb_le in H
      | H : (_ =? _)%N = true |- _ => apply N.eqb_eq in H
      end;
    repeat (apply orb_false_iff; split);
    try (apply N.eqb_neq; lia);
    apply andb_false_iff;
    ((left; apply N.leb_gt; lia) || (right; apply N.leb_gt; lia)).
Qed.

Lemma re_match_explicit (s : str) :
  captures (re_match subgraph_explicit_re s) (explicit_id s).
Proof.
  unfold re_match, subgraph_explicit_re, explicit_id, after_keyword.
  cbn [run]. destruct (startswith _ s); [|done].
  destruct (drop _ s) as [|c r]; [done|].
  destruct (isspace c); [|done].
  rewrite greedy_no_backtrack.
  2:{ intros d t Hd. destruct (id_start d) eqn:E; [|done].
      apply id_start_not_space in E. congruence. }
  destruct (drop_while isspace r) as [|c0 t]; [done|].
  destruct (id_start c0); [|done].
  rewrite greedy_longest by done.
  eexists; split; [done|]. cbn [groups].
  rewrite lookup_insert_ne by done. rewrite lookup_insert_eq.
  by rewrite take_while_length_cons.
Qed.

Lemma re_match_label (s : str) :
  captures (re_match subgraph_label_re s) (quoted_label s).
Proof.
  unfold re_match, subgraph_label_re, quoted_label, after_keyword.
  cbn [run]. destruct (startswith _ s); [|done].
  destruct (drop _ s) as [|c r]; [done|].
  destruct (isspace c); [|done].
  rewrite greedy_no_backtrack.
  2:{ intros d t Hd. cbn [startswith].
      destruct (N.eqb_spec dquote d) as [<-|]; [discriminate Hd|done]. }
  destruct (drop_while isspace r) as [|q t]; [done|].
  cbn [startswith length drop]. rewrite andb_true_r.
  rewrite (N.eqb_sym dquote q).
  destruct (q =? dquote)%N; [|by destruct t].
  destruct t as [|c0 t]; [done|]. cbn [andb drop].
  destruct (not_dquote c0); [|done].
  rewrite greedy_no_backtrack.
  2:{ intros d t' Hd. unfold not_dquote in Hd. rewrite N.eqb_sym.
      apply negb_true_iff in Hd. by rewrite Hd. }
  destruct (drop_while not_dquote t) as [|d t'] eqn:E; [done|].
  apply drop_while_head in E as Hd. unfold not_dquote in Hd.
  apply negb_false_iff in Hd. rewrite N.eqb_sym, Hd. cbn [andb].
  eexists; split; [done|]. cbn [groups].
  rewrite lookup_insert_ne by done. rewrite lookup_insert_eq.
  by rewrite <- E, take_while_length_cons.
Qed.

Lemma terminator_not_space c : not_terminator c = false → isspace c = false.
Proof.
  unfold not_terminator. intros H. apply negb_false_iff, orb_true_iff in H.
  by destruct H as [H|H]; apply N.eqb_eq in H; subst c.
Qed.

Lemma re_match_class (s : str) :
  captures (re_match class_re s) (class_clause s).
Proof.
  unfold re_match, class_re, class_clause.
  cbn [run]. destruct (startswith _ s); [|done].
  destruct (drop _ s) as [|c r]; [done|].
  destruct (isspace c); [|done].
  set (k := λ s'' : str, _).
  assert (∀ d t, not_terminator d = true →
            ∃ m, k (d :: t) = Some m
                 ∧ groups m !! 1 = Some (d :: take_while not_terminator t))
    as Hk.
  { intros d t Hd. unfold k. rewrite Hd. rewrite greedy_longest by done.
    eexists; split; [done|]. cbn [groups].
    rewrite lookup_insert_ne by done. rewrite lookup_insert_eq.
    by rewrite take_while_length_cons. }
  assert (∀ d t, not_terminator d = false → k (d :: t) = None) as Hk'.
  { intros d t Hd. unfold k. by rewrite Hd. }
  assert (∀ d t, isspace d = true → k (d :: t) ≠ None) as Hsp.
  { intros d t Hd. destruct (not_terminator d) eqn:E.
    - by destruct (Hk d t E) as (m & -> & _).
    - apply terminator_not_space in E. congruence. }
  assert (∀ w, w ∈ take_while isspace r → not_terminator w = true) as Hw.
  { intros w Hin. pose proof (take_while_all isspace r) as Hall.
    rewrite Forall_forall in Hall. apply Hall in Hin.
    destruct (not_terminator w) eqn:E; [done|].
    apply terminator_not_space in E. congruence. }
  destruct (drop_while isspace r) as [|d t] eqn:E.
  - cbn [take_while]. rewrite greedy_one_back; [|done|by rewrite E].
    destruct (last (take_while isspace r)) as [w|] eqn:El; [|done].
    rewrite E. apply last_Some_elem_of, Hw in El.
    destruct (Hk w [] El) as (m & Hm & Hg). by exists m.
  - cbn [take_while]. destruct (not_terminator d) eqn:Ed.
    + rewrite greedy_longest
        by (rewrite E; by destruct (Hk d t Ed) as (m & -> & _)).
      rewrite E. apply Hk, Ed.
    + rewrite greedy_one_back; [|done|by rewrite E; apply Hk'].
      destruct (last (take_while isspace r)) as [w|] eqn:El; [|done].
      rewrite E. apply last_Some_elem_of, Hw in El.
      destruct (Hk w (d :: t) El) as (m & Hm & Hg). exists m. split; [done|].
      rewrite Hg. cbn [take_while]. by rewrite Ed.
Qed.

(** ** The two loops *)

(** Replace a [re.match] by what it captures. *)
Ltac use_capture H :=
  let m := fresh "m" in
  let Hm := fresh "Hm" in
  let Hg := fresh "Hg" in
  lazymatch type of H with
  | captures _ (Some _) =>
      destruct H as (m & Hm & Hg); rewrite Hm; cbn [matched group];
      rewrite Hg; cbn [mbind result_bind mret result_ret]
  | captures _ None =>
      red in H; rewrite H; cbn [matched]
  end.

Lemma first_pass_body_ok (subgraph_ids : gset str) (line : str) :
  first_pass_body subgraph_ids line = Ok (subgraph_ids ∪ line_ids line).
Proof.
  unfold first_pass_body, line_ids. cbv zeta.
  pose proof (re_match_explicit (strip line)) as He.
  pose proof (re_match_label (strip line)) as Hl.
  destruct (explicit_id (strip line)) as [g|]; use_capture He;
    cbn [mbind result_bind mret result_ret];
    (destruct (quoted_label (strip line)) as [label|]; use_capture Hl);
    try destruct (truthy _);
    cbn [mbind result_bind mret result_ret]; f_equal;
    by rewrite ?(left_id_L ∅ (∪)), ?(right_id_L ∅ (∪)), ?(assoc_L (∪)).
Qed.

Lemma first_pass_ok (lines : list str) (subgraph_ids : gset str) :
  for_each first_pass_body lines subgraph_ids
  = Ok (subgraph_ids ∪ subgraph_ids_of lines).
Proof.
  revert subgraph_ids. induction lines as [|line lines IH]; intros ids.
  - cbn [for_each mret result_ret]. f_equal. unfold subgraph_ids_of.
    rewrite fmap_nil, union_list_nil. by rewrite (right_id_L ∅ (∪)).
  - cbn [for_each]. rewrite first_pass_body_ok.
    cbn [mbind result_bind]. rewrite IH. f_equal.
    unfold subgraph_ids_of. rewrite fmap_cons, union_list_cons.
    by rewrite (assoc_L (∪)).
Qed.

Lemma second_pass_body_ok (subgraph_ids : gset str) cleaned_lines line :
  second_pass_body subgraph_ids cleaned_lines line
  = Ok (if keeps_line subgraph_ids line then cleaned_lines ++ [line]
        else cleaned_lines).
Proof.
  unfold second_pass_body, keeps_line. cbv zeta.
  destruct (startswith _ (strip line)); [|done].
  pose proof (re_match_class (strip line)) as Hc.
  destruct (class_clause (strip line)) as [g|]; use_capture Hc; [|done].
  fold (cleaned_targets (strip g)).
  change (λ id : str, _) with (bad_target subgraph_ids).
  by destruct (existsb _ _).
Qed.

Lemma second_pass_ok (subgraph_ids : gset str) lines cleaned_lines :
  for_each (second_pass_body subgraph_ids) lines cleaned_lines
  = Ok (cleaned_lines
        ++ filter (λ line, keeps_line subgraph_ids line = true) lines).
Proof.
  revert cleaned_lines. induction lines as [|line lines IH]; intros cl.
  - cbn [for_each mret result_ret]. by rewrite filter_nil, app_nil_r.
  - cbn [for_each]. rewrite second_pass_body_ok. cbn [mbind result_bind].
    rewrite IH, filter_cons. destruct (keeps_line subgraph_ids line) eqn:E.
    + rewrite decide_True by done. by rewrite <- app_assoc.
    + rewrite decide_False by done. done.
Qed.

(** The function never takes an error branch, and computes [sanitize]. *)
Lemma clean_invalid_class_statements_ok (diagram : str) :
  clean_invalid_class_statements diagram = Ok (sanitize diagram).
Proof.
  unfold clean_invalid_class_statements, sanitize. cbv zeta.
  rewrite first_pass_ok. cbn [mbind result_bind].
  rewrite second_pass_ok. cbn [mbind result_bind mret result_ret app].
  by rewrite (left_id_L ∅ (∪)).
Qed.

(** ** [split] and [join] *)

Section split_join.
Variable sep : N.

Lemma split_nonempty (s : str) : split sep s ≠ [].
Proof.
  destruct s as [|c s]; simpl; [done|].
  destruct (c =? sep)%N; [done|]. by destruct (split sep s).
Qed.

Lemma join_cons (piece : str) (pieces : list str) :
  pieces ≠ [] → join sep (piece :: pieces) = piece ++ sep :: join sep pieces.
Proof. by destruct pieces. Qed.

Lemma join_split (s : str) : join sep (split sep s) = s.
Proof.
  induction s as [|c s IH]; simpl; [done|].
  destruct (N.eqb_spec c sep) as [->|Hc].
  - rewrite join_cons by apply split_nonempty. by rewrite IH.
  - pose proof (split_nonempty s) as Hne.
    destruct (split sep s) as [|piece pieces]; [done|].
    destruct pieces as [|piece' pieces].
    + simpl in *. by rewrite IH.
    + rewrite join_cons in IH by done. rewrite join_cons by done.
      cbn [app]. by rewrite IH.
Qed.

Lemma split_no_sep (s : str) : Forall (λ piece, sep ∉ piece) (split sep s).
Proof.
  induction s as [|c s IH]; simpl.
  - constructor; [|constructor]. by intros ?%elem_of_nil.
  - destruct (N.eqb_spec c sep) as [->|Hc].
    + constructor; [|done]. by intros ?%elem_of_nil.
    + destruct (split sep s) as [|piece pieces].
      * constructor; [|constructor].
        intros [?|?%elem_of_nil]%elem_of_cons; congruence.
      * inversion IH as [|? ? Hp Hps]; subst. constructor; [|done].
        intros [?|?]%elem_of_cons; [congruence|done].
Qed.

Lemma split_one (s : str) : sep ∉ s → split sep s = [s].
Proof.
  induction s as [|c s IH]; simpl; [done|]. intros Hn.
  destruct (N.eqb_spec c sep) as [->|Hc].
  - exfalso. apply Hn. by left.
  - rewrite IH; [done|]. intros ?. apply Hn. by right.
Qed.

Lemma split_app (piece s : str) :
  sep ∉ piece →
  split sep (piece ++ sep :: s) = piece :: split sep s.
Proof.
  induction piece as [|c piece IH]; simpl; intros Hn.
  - by rewrite N.eqb_refl.
  - destruct (N.eqb_spec c sep) as [->|Hc].
    + exfalso. apply Hn. by left.
    + rewrite IH; [done|]. intros ?. apply Hn. by right.
Qed.

Lemma split_join (pieces : list str) :
  pieces ≠ [] → Forall (λ piece, sep ∉ piece) pieces →
  split sep (join sep pieces) = pieces.
Proof.
  induction pieces as [|piece pieces IH]; [done|]. intros _ Hall.
  inversion Hall as [|? ? Hp Hps]; subst.
  destruct pieces as [|piece' pieces].
  - simpl. by apply split_one.
  - rewrite join_cons by done. rewrite split_app by done.
    by rewrite IH.
Qed.

(** Text appended after the last separator lands in the last piece. *)
Lemma split_app_tail (s tail : str) :
  sep ∉ tail →
  ∃ pieces piece,
    split sep s = pieces ++ [piece]
    ∧ split sep (s ++ tail) = pieces ++ [piece ++ tail].
Proof.
  intros Hn. induction s as [|c s (pieces & piece & Hs & Ht)]; simpl.
  - exists [], []. by rewrite split_one.
  - destruct (c =? sep)%N.
    + exists ([] :: pieces), piece. by rewrite Hs, Ht.
    + rewrite Hs, Ht. destruct pieces as [|q pieces]; simpl.
      * by exists [], (c :: piece).
      * by exists ((c :: q) :: pieces), piece.
Qed.

End split_join.

(** ** [strip] *)

Section strip.
Variable p : N → bool.

Lemma strip_with_lead (lead s : str) :
  Forall (λ c, p c = true) lead →
  strip_with p (lead ++ s) = strip_with p s.
Proof.
  intros H. unfold strip_with, lstrip_with. by rewrite drop_while_all.
Qed.

Lemma strip_with_trail (s trail : str) :
  Forall (λ c, p c = true) trail →
  strip_with p (s ++ trail) = strip_with p s.
Proof.
  intros H. unfold strip_with, lstrip_with, rstrip_with.
  destruct (drop_while p s) as [|c t] eqn:E.
  - apply drop_while_nil in E.
    rewrite <- (app_nil_r (s ++ trail)), drop_while_all; [done|].
    by apply Forall_app.
  - rewrite drop_while_app_ne by (by rewrite E). rewrite E.
    rewrite rev_app_distr, drop_while_all; [done|].
    by apply Forall_rev.
Qed.

(** A string is its stripped form between two runs of stripped
    characters. *)
Lemma strip_with_decompose (s : str) :
  ∃ lead trail,
    s = lead ++ strip_with p s ++ trail
    ∧ Forall (λ c, p c = true) lead ∧ Forall (λ c, p c = true) trail.
Proof.
  exists (take_while p s), (rev (take_while p (rev (drop_while p s)))).
  split; [|split].
  - unfold strip_with, lstrip_with, rstrip_with.
    rewrite <- rev_app_distr, take_drop_while, rev_involutive.
    by rewrite take_drop_while.
  - apply take_while_all.
  - apply Forall_rev, take_while_all.
Qed.

End strip.

Lemma split_app_head (sep : N) (lead s : str) :
  sep ∉ lead →
  ∃ piece pieces,
    split sep s = piece :: pieces
    ∧ split sep (lead ++ s) = (lead ++ piece) :: pieces.
Proof.
  intros Hn. induction lead as [|c lead IH]; simpl.
  - pose proof (split_nonempty sep s).
    destruct (split sep s) as [|piece pieces]; [done|]. by eexists _, _.
  - destruct (N.eqb_spec c sep) as [->|Hc].
    + exfalso. apply Hn. by left.
    + destruct IH as (piece & pieces & Hs & Hl).
      { intros ?. apply Hn. by right. }
      rewrite Hl. by exists piece, pieces.
Qed.

Lemma space_not_sep (sep : N) (ws : str) :
  isspace sep = false → Forall (λ c, isspace c = true) ws → sep ∉ ws.
Proof.
  intros Hs Hall Hin. rewrite Forall_forall in Hall.
  apply Hall in Hin. congruence.
Qed.

(** Stripping a string before splitting it on a separator that is not
    whitespace changes no stripped piece. *)
Lemma map_strip_split {B} (h : str → B) (sep : N) (s : str) :
  isspace sep = false →
  map (λ piece, h (strip piece)) (split sep (strip s))
  = map (λ piece, h (strip piece)) (split sep s).
Proof.
  intros Hsep.
  destruct (strip_with_decompose isspace s) as (lead & trail & Hs & Hl & Ht).
  fold (strip s) in Hs. rewrite Hs at 2.
  destruct (split_app_head sep lead (strip s ++ trail))
    as (piece & pieces & H1 & H2); [by apply space_not_sep|].
  rewrite H2.
  assert (map (λ piece, h (strip piece)) ((lead ++ piece) :: pieces)
          = map (λ piece, h (strip piece)) (piece :: pieces)) as ->.
  { cbn [map]. unfold strip at 1. by rewrite strip_with_lead. }
  rewrite <- H1.
  destruct (split_app_tail sep (strip s) trail)
    as (ps & q & H3 & H4); [by apply space_not_sep|].
  rewrite H3, H4, !map_app. cbn [map]. unfold strip at 4.
  by rewrite strip_with_trail.
Qed.

(** ** Lines that are and are not class statements *)

Lemma contains_spec (c : N) (s : str) : contains c s = true ↔ c ∈ s.
Proof.
  unfold contains, mem. rewrite existsb_exists. split.
  - intros (x & Hin & ->%N.eqb_eq). by apply list_elem_of_In.
  - intros Hin. exists c. split; [by apply list_elem_of_In|apply N.eqb_refl].
Qed.

Lemma keeps_line_not_class (subgraph_ids : gset str) (line : str) :
  startswith (lit "class ") (strip line) = false →
  keeps_line subgraph_ids line = true.
Proof. unfold keeps_line. by intros ->. Qed.

Lemma dropped_is_class (subgraph_ids : gset str) (line : str) :
  keeps_line subgraph_ids line = false →
  startswith (lit "class ") (strip line) = true.
Proof.
  intros H. destruct (startswith _ (strip line)) eqn:E; [done|].
  by rewrite keeps_line_not_class in H.
Qed.

(** A class statement declares no subgraph: both declaration patterns start
    with another keyword. *)
Lemma class_not_subgraph (s : str) :
  startswith (lit "class ") s = true →
  after_keyword (lit "subgraph") s = None.
Proof.
  unfold after_keyword. destruct s as [|c s]; [done|].
  cbn [lit list_ascii_of_string map startswith].
  destruct (N.eqb_spec (N_of_ascii "c") c) as [<-|]; [|done]. done.
Qed.

Lemma line_ids_class (line : str) :
  startswith (lit "class ") (strip line) = true → line_ids line = ∅.
Proof.
  intros H%class_not_subgraph. unfold line_ids, explicit_id, quoted_label.
  cbv zeta. rewrite H. by rewrite (left_id_L ∅ (∪)).
Qed.

(** Removing lines that declare nothing leaves the identifier set as it
    was. *)
Lemma subgraph_ids_of_filter (P : str → Prop) `{!∀ l, Decision (P l)}
  (lines : list str) :
  (∀ line, line ∈ lines → ¬ P line → line_ids line = ∅) →
  subgraph_ids_of (filter P lines) = subgraph_ids_of lines.
Proof.
  unfold subgraph_ids_of. induction lines as [|line lines IH]; intros Hids.
  - done.
  - rewrite filter_cons, fmap_cons, union_list_cons.
    rewrite <- IH by (intros l Hl; apply Hids; by right).
    destruct (decide (P line)) as [Hp|Hp].
    + by rewrite fmap_cons, union_list_cons.
    + rewrite (Hids line) by (done || by left).
      by rewrite (left_id_L ∅ (∪)).
Qed.

Lemma sanitize_fixed (lines : list str) (subgraph_ids : gset str) :
  filter (λ l, keeps_line subgraph_ids l = true)
    (filter (λ l, keeps_line subgraph_ids l = true) lines)
  = filter (λ l, keeps_line subgraph_ids l = true) lines.
Proof. rewrite list_filter_filter. apply list_filter_iff. intros l; tauto. Qed.

Lemma sanitize_idempotent (diagram : str) :
  sanitize (sanitize diagram) = sanitize diagram.
Proof.
  set (lines := split newline diagram).
  set (ids := subgraph_ids_of lines).
  set (kept := filter (λ l, keeps_line ids l = true) lines).
  change (sanitize diagram) with (join newline kept).
  destruct kept as [|k0 kept'] eqn:Ek; [by vm_compute|].
  rewrite <- Ek. unfold sanitize.
  assert (split newline (join newline kept) = kept) as ->.
  { apply split_join; [by rewrite Ek|].
    apply Forall_forall. intros l [_ Hl]%list_elem_of_filter.
    pose proof (split_no_sep newline diagram) as Hall.
    rewrite Forall_forall in Hall. by apply Hall. }
  assert (subgraph_ids_of kept = ids) as ->.
  { apply subgraph_ids_of_filter. intros l _ Hl.
    apply line_ids_class, (dropped_is_class ids).
    by destruct (keeps_line ids l). }
  unfold kept. by rewrite sanitize_fixed.
Qed.

Lemma strip_space (w : N) : isspace w = true → strip [w] = [].
Proof.
  intros H. unfold strip, strip_with, lstrip_with, rstrip_with.
  cbn [drop_while]. by rewrite H.
Qed.

(** What the code parses (group 1 of the pattern, stripped) and the clause of
    the specification have the same cleaned targets. *)
Lemma class_clause_targets (s g : str) :
  class_clause s = Some g →
  cleaned_targets (strip g) = cleaned_targets (targets_clause s).
Proof.
  unfold class_clause, targets_clause. destruct (startswith _ s); [|done].
  destruct (drop _ s) as [|c r]; [done|].
  destruct (isspace c) eqn:Ec; [|done]. cbn [drop_while]. rewrite Ec.
  destruct (take_while not_terminator (drop_while isspace r)) as [|d clause].
  - destruct (last (take_while isspace r)) as [w|] eqn:El; [|done].
    intros [= <-]. rewrite strip_space; [done|].
    pose proof (take_while_all isspace r) as Hall.
    rewrite Forall_forall in Hall. by apply Hall, last_Some_elem_of.
  - intros [= <-]. by apply map_strip_split.
Qed.

Lemma matched_class_clause (s : str) :
  matched (re_match class_re s) = true → ∃ g, class_clause s = Some g.
Proof.
  pose proof (re_match_class s) as H.
  destruct (class_clause s) as [g|]; [by exists g|].
  red in H. by rewrite H.
Qed.

Lemma bad_target_spec (subgraph_ids : gset str) (id : str) :
  bad_target subgraph_ids id = false ↔ good_target subgraph_ids id.
Proof.
  unfold bad_target, good_target.
  rewrite !orb_false_iff, bool_decide_eq_false.
  rewrite <- !contains_spec, !not_true_iff_false. tauto.
Qed.

Lemma no_bad_target (subgraph_ids : gset str) (ids : list str) :
  negb (existsb (bad_target subgraph_ids) ids) = true
  ↔ Forall (good_target subgraph_ids) ids.
Proof.
  rewrite negb_true_iff. induction ids as [|id ids IH]; cbn [existsb].
  - split; [constructor|done].
  - rewrite orb_false_iff, Forall_cons, bad_target_spec, IH. done.
Qed.

(** ** Declarations *)

Lemma startswith_app (kw s : str) : startswith kw (kw ++ s) = true.
Proof. induction kw as [|c kw IH]; simpl; [done|]. by rewrite N.eqb_refl. Qed.

Lemma startswith_split (kw s : str) :
  startswith kw s = true → s = kw ++ drop (length kw) s.
Proof.
  revert s. induction kw as [|c kw IH]; intros [|d s]; simpl; try done.
  intros [->%N.eqb_eq H]%andb_true_iff. f_equal. by apply IH.
Qed.

Lemma after_keyword_app (kw ws rest : str) :
  ws ≠ [] → Forall (λ c, isspace c = true) ws →
  after_keyword kw (kw ++ ws ++ rest) = Some (drop_while isspace rest).
Proof.
  intros Hne Hall. unfold after_keyword.
  rewrite startswith_app, drop_app_length.
  destruct Hall as [|c ws Hc Hall]; [done|]. simpl. rewrite Hc.
  by rewrite drop_while_all.
Qed.

Lemma while_app_stop (p : N → bool) (s : str) (d : N) (rest : str) :
  Forall (λ c, p c = true) s → p d = false →
  take_while p (s ++ d :: rest) = s ∧ drop_while p (s ++ d :: rest) = d :: rest.
Proof.
  intros Hall Hd. induction Hall as [|c s Hc _ [IH1 IH2]]; simpl.
  - by rewrite Hd.
  - rewrite Hc. by rewrite IH1, IH2.
Qed.

(** A trimmed line of the form [subgraph], whitespace, bareword. *)
Lemma bareword_line_ids (line ws : str) (c : N) (tail : str) :
  strip line = lit "subgraph" ++ ws ++ c :: tail →
  ws ≠ [] → Forall (λ c, isspace c = true) ws → id_start c = true →
  line_ids line = {[ c :: take_while id_char tail ]}.
Proof.
  intros Hs Hne Hws Hc. unfold line_ids, explicit_id, quoted_label.
  cbv zeta. rewrite Hs, after_keyword_app by done.
  cbn [drop_while]. rewrite (id_start_not_space c Hc), Hc.
  assert ((c =? dquote)%N = false) as ->.
  { apply N.eqb_neq. intros ->. discriminate Hc. }
  cbn [andb]. destruct tail; by rewrite (right_id_L ∅ (∪)).
Qed.

Lemma normalize_label_code (label : str) :
  remove_char (chr "'") (remove_char (chr " ") label) = normalize_label label.
Proof.
  unfold remove_char, normalize_label.
  induction label as [|c label IH]; [done|]. cbn [List.filter].
  rewrite filter_cons.
  destruct (N.eqb_spec c (chr " ")) as [->|Hsp]; cbn [negb].
  - rewrite decide_False by tauto. done.
  - cbn [List.filter]. destruct (N.eqb_spec c (chr "'")) as [->|Hq]; cbn [negb].
    + rewrite decide_False by tauto. done.
    + rewrite decide_True by tauto. by rewrite IH.
Qed.

(** A trimmed line of the form [subgraph], whitespace, quoted label. *)
Lemma quoted_line_ids (line ws label rest : str) :
  strip line = lit "subgraph" ++ ws ++ dquote :: label ++ dquote :: rest →
  ws ≠ [] → Forall (λ c, isspace c = true) ws →
  label ≠ [] → dquote ∉ label →
  line_ids line
  = {[ label ]}
    ∪ (if truthy (normalize_label label) then {[ normalize_label label ]}
       else ∅).
Proof.
  intros Hs Hne Hws Hl Hq. unfold line_ids, explicit_id, quoted_label.
  cbv zeta. rewrite Hs, after_keyword_app by done.
  cbn [drop_while]. change (isspace dquote) with false. cbv iota.
  change (id_start dquote) with false. cbv iota.
  destruct label as [|c label]; [done|]. cbn [app].
  rewrite N.eqb_refl. cbn [andb].
  assert (Forall (λ c, not_dquote c = true) (c :: label)) as Hall.
  { apply Forall_forall. intros d Hd. unfold not_dquote.
    apply negb_true_iff, N.eqb_neq. intros ->. done. }
  inversion Hall as [|? ? Hc Hall']; subst. rewrite Hc.
  destruct (while_app_stop not_dquote label dquote rest Hall' eq_refl)
    as [-> ->].
  rewrite normalize_label_code. by rewrite (left_id_L ∅ (∪)).
Qed.

Lemma elem_of_subgraph_ids_of (x : str) (lines : list str) :
  x ∈ subgraph_ids_of lines ↔ ∃ line, line ∈ lines ∧ x ∈ line_ids line.
Proof.
  unfold subgraph_ids_of. rewrite elem_of_union_list. split.
  - intros (X & (line & -> & Hin)%list_elem_of_fmap & Hx). eauto.
  - intros (line & Hin & Hx). exists (line_ids line). split; [|done].
    apply list_elem_of_fmap. eauto.
Qed.

Lemma line_ids_nonempty (line : str) : [] ∉ line_ids line.
Proof.
  unfold line_ids, explicit_id, quoted_label. cbv zeta.
  destruct (after_keyword _ _) as [[|c [|d t]]|];
    rewrite ?(left_id_L ∅ (∪)), ?(right_id_L ∅ (∪));
    try apply not_elem_of_empty.
  - destruct (id_start c); rewrite ?(right_id_L ∅ (∪));
      [by intros ?%elem_of_singleton|apply not_elem_of_empty].
  - intros [H|H]%elem_of_union.
    + destruct (id_start c); [by apply elem_of_singleton in H|].
      by apply not_elem_of_empty in H.
    + destruct (_ && _); [|by apply not_elem_of_empty in H].
      destruct (drop_while _ _); [by apply not_elem_of_empty in H|].
      apply elem_of_union in H as [H|H]; [by apply elem_of_singleton in H|].
      destruct (remove_char _ _) eqn:E; cbn [truthy] in H;
        [by apply not_elem_of_empty in H|by apply elem_of_singleton in H].
Qed.

(** ** Order of the lines *)

Lemma subgraph_ids_of_perm (lines lines' : list str) :
  lines' ≡ₚ lines → subgraph_ids_of lines' = subgraph_ids_of lines.
Proof.
  intros Hp. apply set_eq. intros x. rewrite !elem_of_subgraph_ids_of.
  split; intros (line & Hin & Hx); exists line; split; try done.
  - by rewrite <- Hp.
  - by rewrite Hp.
Qed.

Lemma keeps_line_bad_target (subgraph_ids : gset str) (cls x : str) :
  startswith (lit "class ") (strip cls) = true →
  matched (re_match class_re (strip cls)) = true →
  x ∈ cleaned_targets (targets_clause (strip cls)) →
  bad_target subgraph_ids x = true →
  keeps_line subgraph_ids cls = false.
Proof.
  intros Hclass Hm Hx Hbad. destruct (matched_class_clause _ Hm) as (g & Hg).
  unfold keeps_line. rewrite Hclass, Hg, (class_clause_targets _ _ Hg).
  apply negb_false_iff, existsb_exists. exists x.
  split; [by apply list_elem_of_In|done].
Qed.

(** ** The clause the class pattern captures *)

Lemma not_terminator_spec (c : N) :
  not_terminator c = true ↔ ¬ is_terminator c.
Proof.
  unfold not_terminator, is_terminator.
  rewrite negb_true_iff, orb_false_iff, !N.eqb_neq. tauto.
Qed.

Lemma class_clause_decompose (s clause : str) :
  class_clause s = Some clause →
  ∃ ws rest,
    s = lit "class" ++ ws ++ clause ++ rest
    ∧ ws ≠ [] ∧ Forall (λ c, isspace c = true) ws
    ∧ clause ≠ [] ∧ Forall (λ c, ¬ is_terminator c) clause
    ∧ match rest with [] => True | t :: _ => is_terminator t end.
Proof.
  unfold class_clause. destruct (startswith _ s) eqn:Hkw; [|done].
  apply startswith_split in Hkw.
  destruct (drop _ s) as [|c r] eqn:Hr; [done|].
  destruct (isspace c) eqn:Hc; [|done].
  pose proof (take_drop_while isspace r) as Hsp.
  pose proof (take_while_all isspace r) as Hall.
  pose proof (take_drop_while not_terminator (drop_while isspace r)) as Hnt.
  pose proof (take_while_all not_terminator (drop_while isspace r)) as Hall'.
  assert (match drop_while not_terminator (drop_while isspace r) with
          | [] => True | t :: _ => is_terminator t end) as Hrest.
  { destruct (drop_while not_terminator _) as [|t u] eqn:E; [done|].
    apply drop_while_head in E. destruct (decide (is_terminator t)); [done|].
    apply not_terminator_spec in n. congruence. }
  destruct (take_while not_terminator (drop_while isspace r))
    as [|d cl] eqn:Ecl.
  - destruct (last (take_while isspace r)) as [w|] eqn:El; [|done].
    intros [= <-]. apply last_Some in El as [init Einit].
    rewrite Einit in Hsp, Hall.
    exists (c :: init), (drop_while isspace r).
    apply Forall_app in Hall as [Hinit Hw]. repeat split.
    + rewrite Hkw at 1. f_equal. cbn [app]. f_equal.
      rewrite <- Hsp at 1. by rewrite <- app_assoc.
    + done.
    + by constructor.
    + done.
    + apply Forall_singleton. inversion Hw as [|? ? Hw' _]; subst.
      intros Ht. destruct (not_terminator w) eqn:E.
      * by apply not_terminator_spec in E.
      * apply terminator_not_space in E. congruence.
    + by rewrite <- Hnt.
  - intros [= <-].
    exists (c :: take_while isspace r),
      (drop_while not_terminator (drop_while isspace r)).
    repeat split.
    + rewrite Hkw at 1. f_equal. cbn [app]. f_equal.
      rewrite <- Hsp at 1. f_equal. symmetry. exact Hnt.
    + done.
    + by constructor.
    + done.
    + eapply Forall_impl; [exact Hall'|]. intros a. apply not_terminator_spec.
    + done.
Qed.

Lemma group_class_clause (s clause : str) :
  group (re_match class_re s) 1 = Ok clause → class_clause s = Some clause.
Proof.
  pose proof (re_match_class s) as H. destruct (class_clause s) as [g|].
  - intros Hg. by rewrite (captures_group _ _ _ H Hg).
  - red in H. by rewrite H.
Qed.

(** * The claims *)

(** C1: for a line whose trimmed form starts with [class ] and from which the
    pattern extracts a targets clause, the second loop appends the original
    line, verbatim, if and only if no cleaned target of the clause (its
    comma-separated pieces, trimmed of whitespace and then of surrounding
    quote characters) is in the identifier set, contains a space or contains
    a single quote; otherwise it appends nothing.  The output is the join of
    the lines so kept. *)
Theorem class_statement_kept_iff (diagram line : str) :
  startswith (lit "class ") (strip line) = true →
  matched (re_match class_re (strip line)) = true →
  let lines := split newline diagram in
  let subgraph_ids := subgraph_ids_of lines in
  for_each first_pass_body lines ∅ = Ok subgraph_ids
  ∧ clean_invalid_class_statements diagram
    = Ok (join newline
            (filter (λ l, keeps_line subgraph_ids l = true) lines))
  ∧ (∀ cleaned_lines,
       second_pass_body subgraph_ids cleaned_lines line
       = Ok (if keeps_line subgraph_ids line then cleaned_lines ++ [line]
             else cleaned_lines))
  ∧ (keeps_line subgraph_ids line = true
     ↔ Forall (good_target subgraph_ids)
         (cleaned_targets (targets_clause (strip line)))).
Proof.
  intros Hclass Hm lines ids. repeat split.
  - rewrite first_pass_ok. by rewrite (left_id_L ∅ (∪)).
  - apply clean_invalid_class_statements_ok.
  - intros cl. apply second_pass_body_ok.
  - destruct (matched_class_clause _ Hm) as (g & Hg).
    unfold keeps_line. rewrite Hclass, Hg.
    rewrite (class_clause_targets _ _ Hg). apply no_bad_target.
  - destruct (matched_class_clause _ Hm) as (g & Hg).
    unfold keeps_line. rewrite Hclass, Hg.
    rewrite (class_clause_targets _ _ Hg). apply no_bad_target.
Qed.

Lemma class_statement_kept_iff_witness :
  let diagram := scenario_A in
  let line := lit "class API,A fill:#f9f" in
  startswith (lit "class ") (strip line) = true
  ∧ matched (re_match class_re (strip line)) = true
  ∧ (keeps_line (subgraph_ids_of (split newline diagram)) line = true
     ↔ Forall (good_target (subgraph_ids_of (split newline diagram)))
         (cleaned_targets (targets_clause (strip line)))).
Proof.
  cbv zeta. split; [by vm_compute|]. split; [by vm_compute|].
  apply (class_statement_kept_iff scenario_A (lit "class API,A fill:#f9f"));
    by vm_compute.
Defined.

(** C2, on the code as it is: on Scenario A the function removes both class
    statements, [class API,A fill:#f9f] and [class A fill:#bbf] alike.  The
    clause captured for the second one is [A fill] (everything before the
    colon), its single cleaned target [A fill] contains a space, and the
    statement is dropped although [A] is a node and not a subgraph. *)
Theorem scenario_A_drops_both_class_statements :
  clean_invalid_class_statements scenario_A
  = Ok (join newline [lit "subgraph API"; lit "A-->B"; lit "end"])
  ∧ group (re_match class_re (lit "class A fill:#bbf")) 1 = Ok (lit "A fill")
  ∧ cleaned_targets (lit "A fill") = [lit "A fill"]
  ∧ keeps_line (subgraph_ids_of (split newline scenario_A))
      (lit "class A fill:#bbf") = false.
Proof. repeat split; vm_compute; reflexivity. Qed.

(** C3: the identifier set is computed from all the lines before any line is
    filtered, does not depend on the order of the lines, and is the one set
    every line is filtered with.  So a class statement with a cleaned target
    that some line of the diagram declares, wherever that line stands, is
    not appended by the second loop. *)
Theorem position_independence (diagram decl cls x : str)
  (declared : gset str) :
  decl ∈ split newline diagram →
  first_pass_body ∅ decl = Ok declared →
  x ∈ declared →
  startswith (lit "class ") (strip cls) = true →
  matched (re_match class_re (strip cls)) = true →
  x ∈ cleaned_targets (targets_clause (strip cls)) →
  let lines := split newline diagram in
  ∃ subgraph_ids,
    for_each first_pass_body lines ∅ = Ok subgraph_ids
    ∧ (∀ lines', lines' ≡ₚ lines →
         for_each first_pass_body lines' ∅ = Ok subgraph_ids)
    ∧ clean_invalid_class_statements diagram
      = Ok (join newline
              (filter (λ l, keeps_line subgraph_ids l = true) lines))
    ∧ x ∈ subgraph_ids
    ∧ (∀ cleaned_lines,
         second_pass_body subgraph_ids cleaned_lines cls = Ok cleaned_lines)
    ∧ cls ∉ filter (λ l, keeps_line subgraph_ids l = true) lines.
Proof.
  intros Hdecl Hfirst Hx Hclass Hm Htarget lines.
  exists (subgraph_ids_of lines).
  assert (x ∈ subgraph_ids_of lines) as Hin.
  { apply elem_of_subgraph_ids_of. exists decl. split; [done|].
    rewrite first_pass_body_ok in Hfirst. injection Hfirst as <-.
    by rewrite (left_id_L ∅ (∪)) in Hx. }
  assert (keeps_line (subgraph_ids_of lines) cls = false) as Hdrop.
  { apply (keeps_line_bad_target _ _ x); try done.
    unfold bad_target. by rewrite bool_decide_true. }
  repeat split.
  - rewrite first_pass_ok. by rewrite (left_id_L ∅ (∪)).
  - intros lines' Hp. rewrite first_pass_ok, (left_id_L ∅ (∪)).
    by rewrite (subgraph_ids_of_perm lines lines').
  - apply clean_invalid_class_statements_ok.
  - done.
  - intros cl. by rewrite second_pass_body_ok, Hdrop.
  - intros [Hk _]%list_elem_of_filter. congruence.
Qed.

Lemma position_independence_witness :
  let diagram :=
    join newline [lit "class API;"; lit "A-->B"; lit "subgraph API"; lit "end"] in
  let lines := split newline diagram in
  ∃ subgraph_ids,
    for_each first_pass_body lines ∅ = Ok subgraph_ids
    ∧ (∀ lines', lines' ≡ₚ lines →
         for_each first_pass_body lines' ∅ = Ok subgraph_ids)
    ∧ clean_invalid_class_statements diagram
      = Ok (join newline
              (filter (λ l, keeps_line subgraph_ids l = true) lines))
    ∧ lit "API" ∈ subgraph_ids
    ∧ (∀ cleaned_lines,
         second_pass_body subgraph_ids cleaned_lines (lit "class API;")
         = Ok cleaned_lines)
    ∧ lit "class API;" ∉ filter (λ l, keeps_line subgraph_ids l = true) lines.
Proof.
  intros diagram.
  apply (position_independence diagram (lit "subgraph API") (lit "class API;")
           (lit "API") {[ lit "API" ]}).
  - apply (bool_decide_unpack _). by vm_compute.
  - by vm_compute.
  - apply (bool_decide_unpack _). by vm_compute.
  - by vm_compute.
  - by vm_compute.
  - apply (bool_decide_unpack _). by vm_compute.
Defined.

(** C4: the function is idempotent: it succeeds on every diagram, and
    applied to its own output it returns that output again. *)
Theorem clean_invalid_class_statements_idempotent (diagram : str) :
  ∃ out,
    clean_invalid_class_statements diagram = Ok out
    ∧ clean_invalid_class_statements out = Ok out.
Proof.
  exists (sanitize diagram). split.
  - apply clean_invalid_class_statements_ok.
  - rewrite clean_invalid_class_statements_ok. by rewrite sanitize_idempotent.
Qed.

(** C5: a line whose trimmed form is [subgraph], whitespace and a non-empty
    double-quoted label adds to the identifier set the label verbatim and,
    when it is not empty, the label with every space and single quote
    deleted, and nothing else; both are then in the set the first loop
    returns.  So the label [My Service] registers [My Service] and
    [MyService], and in Scenario B the line [class MyService fill:#ccc] is
    not in the output. *)
Theorem quoted_label_registered (lines : list str) (line ws label rest : str) :
  line ∈ lines →
  strip line = lit "subgraph" ++ ws ++ dquote :: label ++ dquote :: rest →
  ws ≠ [] → Forall (λ c, isspace c = true) ws →
  label ≠ [] → dquote ∉ label →
  (∀ subgraph_ids,
     first_pass_body subgraph_ids line
     = Ok (subgraph_ids
           ∪ ({[ label ]}
              ∪ (if truthy (normalize_label label)
                 then {[ normalize_label label ]} else ∅))))
  ∧ (∃ subgraph_ids,
       for_each first_pass_body lines ∅ = Ok subgraph_ids
       ∧ label ∈ subgraph_ids
       ∧ (normalize_label label ≠ [] → normalize_label label ∈ subgraph_ids)
       ∧ [] ∉ subgraph_ids)
  ∧ (∃ declared,
       first_pass_body ∅ (lit "subgraph " ++ dquote :: lit "My Service" ++ [dquote])
       = Ok declared
       ∧ ∀ x, x ∈ declared ↔ x = lit "My Service" ∨ x = lit "MyService")
  ∧ clean_invalid_class_statements scenario_B
    = Ok (lit "subgraph " ++ dquote :: lit "My Service" ++ [dquote]).
Proof.
  intros Hin Hs Hne Hws Hl Hq.
  pose proof (quoted_line_ids line ws label rest Hs Hne Hws Hl Hq) as Hids.
  split; [|split; [|split]].
  - intros ids. by rewrite first_pass_body_ok, Hids.
  - eexists. split; [apply first_pass_ok|]. rewrite (left_id_L ∅ (∪)). split.
    + apply elem_of_subgraph_ids_of. exists line. split; [done|].
      rewrite Hids. apply elem_of_union_l. by apply elem_of_singleton.
    + split.
      * intros Hn. apply elem_of_subgraph_ids_of. exists line.
        split; [done|]. rewrite Hids. apply elem_of_union_r.
        destruct (normalize_label label); [done|]. by apply elem_of_singleton.
      * intros (l & _ & Hempty)%elem_of_subgraph_ids_of.
        by apply line_ids_nonempty in Hempty.
  - eexists. split; [apply first_pass_body_ok|]. intros x.
    rewrite (quoted_line_ids _ (lit " ") (lit "My Service") []);
      [|by vm_compute|done|by repeat constructor|done
       |by intros ?%(bool_decide_pack _)].
    rewrite (left_id_L ∅ (∪)), elem_of_union.
    change (normalize_label (lit "My Service")) with (lit "MyService").
    cbn [truthy lit map list_ascii_of_string].
    by rewrite !elem_of_singleton.
  - by vm_compute.
Qed.

Lemma quoted_label_registered_witness :
  let line :=
    lit "    subgraph  " ++ dquote :: lit "User's API" ++ dquote :: lit " [x]" in
  let lines := [lit "A-->B"; line; lit "end"] in
  ∃ subgraph_ids,
    for_each first_pass_body lines ∅ = Ok subgraph_ids
    ∧ lit "User's API" ∈ subgraph_ids
    ∧ (normalize_label (lit "User's API") ≠ []
       → normalize_label (lit "User's API") ∈ subgraph_ids)
    ∧ [] ∉ subgraph_ids.
Proof.
  intros line lines.
  refine (proj1 (proj2 (quoted_label_registered lines line (lit "  ")
                          (lit "User's API") (lit " [x]") _ _ _ _ _ _))).
  - apply (bool_decide_unpack _). by vm_compute.
  - by vm_compute.
  - done.
  - by repeat constructor.
  - done.
  - intros H%(bool_decide_pack _). by vm_compute in H.
Defined.

(** C6: for a class statement from which the pattern extracts a clause,
    the clause has no [;] or [:] and is followed, in the trimmed
    statement, by the end of the line or by a terminator: it stops just
    before the first terminator.  The second loop decides on that clause
    and on nothing after it: it drops the line exactly when one of the
    cleaned targets of the clause is in the identifier set or contains a
    space or a single quote, and appends the line as it is otherwise.  For
    [class X,Y; style X fill:#000] the clause is [X,Y] and the cleaned
    targets are [X] and [Y]: the loop drops the line exactly when [X] or
    [Y] is in the identifier set, whatever follows the [;], and the line
    is in the output of a diagram that has it exactly when the diagram
    declares neither. *)
Theorem clause_stops_at_terminator (line clause diagram : str)
  (subgraph_ids : gset str) :
  startswith (lit "class ") (strip line) = true →
  group (re_match class_re (strip line)) 1 = Ok clause →
  scenario_E ∈ split newline diagram →
  for_each first_pass_body (split newline diagram) ∅ = Ok subgraph_ids →
  (∃ ws rest,
     strip line = lit "class" ++ ws ++ clause ++ rest
     ∧ ws ≠ [] ∧ Forall (λ c, isspace c = true) ws
     ∧ clause ≠ [] ∧ Forall (λ c, ¬ is_terminator c) clause
     ∧ match rest with [] => True | t :: _ => is_terminator t end)
  ∧ (∀ ids cleaned_lines,
       second_pass_body ids cleaned_lines line
       = Ok (if existsb (bad_target ids) (cleaned_targets clause)
             then cleaned_lines
             else cleaned_lines ++ [line]))
  ∧ group (re_match class_re (strip scenario_E)) 1 = Ok (lit "X,Y")
  ∧ cleaned_targets (lit "X,Y") = [lit "X"; lit "Y"]
  ∧ (∀ ids cleaned_lines,
       second_pass_body ids cleaned_lines scenario_E
       = Ok (if bool_decide (lit "X" ∈ ids) || bool_decide (lit "Y" ∈ ids)
             then cleaned_lines
             else cleaned_lines ++ [scenario_E]))
  ∧ ∃ kept,
      clean_invalid_class_statements diagram = Ok (join newline kept)
      ∧ (scenario_E ∈ kept
         ↔ (lit "X" ∉ subgraph_ids) ∧ (lit "Y" ∉ subgraph_ids)).
Proof.
  intros Hclass Hg Hin Hfirst.
  assert (∀ l c ids cl,
            startswith (lit "class ") (strip l) = true →
            class_clause (strip l) = Some c →
            second_pass_body ids cl l
            = Ok (if existsb (bad_target ids) (cleaned_targets c)
                  then cl else cl ++ [l])) as Hloop.
  { intros l c ids cl Hl Hc. rewrite second_pass_body_ok. unfold keeps_line.
    rewrite Hl, Hc. unfold cleaned_targets at 1.
    rewrite map_strip_split by done. fold (cleaned_targets c).
    by destruct (existsb _ _). }
  assert (∀ ids,
            existsb (bad_target ids) [lit "X"; lit "Y"]
            = bool_decide (lit "X" ∈ ids) || bool_decide (lit "Y" ∈ ids))
    as Hxy.
  { intros ids. cbn [existsb]. unfold bad_target.
    change (contains (chr " ") (lit "X")) with false.
    change (contains (chr "'") (lit "X")) with false.
    change (contains (chr " ") (lit "Y")) with false.
    change (contains (chr "'") (lit "Y")) with false.
    by rewrite !orb_false_r. }
  assert (∀ ids cl,
            second_pass_body ids cl scenario_E
            = Ok (if bool_decide (lit "X" ∈ ids)
                     || bool_decide (lit "Y" ∈ ids)
                  then cl else cl ++ [scenario_E])) as HE.
  { intros ids cl.
    rewrite (Hloop scenario_E (lit "X,Y")) by (by vm_compute).
    replace (cleaned_targets (lit "X,Y")) with [lit "X"; lit "Y"]
      by (by vm_compute).
    by rewrite Hxy. }
  split; [by apply class_clause_decompose, group_class_clause|].
  split; [intros ids cl; by apply Hloop, group_class_clause|].
  split; [by vm_compute|]. split; [by vm_compute|]. split; [exact HE|].
  eexists. split; [apply clean_invalid_class_statements_ok|].
  rewrite first_pass_ok, (left_id_L ∅ (∪)) in Hfirst.
  injection Hfirst as Hids. rewrite Hids.
  rewrite list_elem_of_filter.
  pose proof (HE subgraph_ids []) as Hd.
  rewrite second_pass_body_ok in Hd.
  destruct (keeps_line subgraph_ids scenario_E);
    destruct (bool_decide (lit "X" ∈ subgraph_ids)) eqn:EX;
    destruct (bool_decide (lit "Y" ∈ subgraph_ids)) eqn:EY;
    cbn [orb] in Hd; try discriminate Hd;
    try apply bool_decide_eq_true in EX;
    try apply bool_decide_eq_true in EY;
    try apply bool_decide_eq_false in EX;
    try apply bool_decide_eq_false in EY;
    split; try tauto; intros [? ?]; done.
Qed.

Lemma clause_stops_at_terminator_witness :
  let line := lit "  class  A , B:::hot" in
  let clause := lit "A , B" in
  let diagram :=
    join newline [lit "subgraph API"; lit "X-->Y"; lit "end"; scenario_E] in
  (∃ ws rest,
     strip line = lit "class" ++ ws ++ clause ++ rest
     ∧ ws ≠ [] ∧ Forall (λ c, isspace c = true) ws
     ∧ clause ≠ [] ∧ Forall (λ c, ¬ is_terminator c) clause
     ∧ match rest with [] => True | t :: _ => is_terminator t end)
  ∧ (∀ ids cleaned_lines,
       second_pass_body ids cleaned_lines line
       = Ok (if existsb (bad_target ids) (cleaned_targets clause)
             then cleaned_lines
             else cleaned_lines ++ [line]))
  ∧ ∃ kept,
      clean_invalid_class_statements diagram = Ok (join newline kept)
      ∧ (scenario_E ∈ kept
         ↔ (lit "X" ∉ subgraph_ids_of (split newline diagram))
           ∧ (lit "Y" ∉ subgraph_ids_of (split newline diagram))).
Proof.
  intros line clause diagram.
  pose proof (clause_stops_at_terminator line clause diagram
                (subgraph_ids_of (split newline diagram))) as H.
  destruct H as (H1 & H2 & _ & _ & _ & H3).
  - by vm_compute.
  - by vm_compute.
  - apply (bool_decide_unpack _). by vm_compute.
  - by vm_compute.
  - by repeat split.
Defined.

(** C7: a diagram none of whose lines is a class statement (no trimmed line
    starts with [class ]) is returned unchanged; in particular the empty
    string is returned as the empty string. *)
Theorem identity_on_clean_input (diagram : str) :
  forallb (λ line, negb (startswith (lit "class ") (strip line)))
    (split newline diagram) = true →
  clean_invalid_class_statements diagram = Ok diagram
  ∧ clean_invalid_class_statements [] = Ok [].
Proof.
  intros H. split; [|by vm_compute].
  rewrite clean_invalid_class_statements_ok. f_equal. unfold sanitize.
  cbv zeta. transitivity (join newline (split newline diagram));
    [|apply join_split].
  f_equal. generalize (subgraph_ids_of (split newline diagram)) as ids.
  intros ids.
  rewrite forallb_forall in H.
  induction (split newline diagram) as [|line lines IH]; [done|].
  rewrite filter_cons_True.
  - f_equal. apply IH. intros l Hl. apply H. by right.
  - apply keeps_line_not_class. apply negb_true_iff, H. by left.
Qed.

Lemma identity_on_clean_input_witness :
  let diagram :=
    join newline [lit "subgraph API"; lit "  A-->B"; lit "end"] in
  clean_invalid_class_statements diagram = Ok diagram
  ∧ clean_invalid_class_statements [] = Ok [].
Proof. apply identity_on_clean_input. by vm_compute. Defined.

(** C8: the function is total over strings: on every input it returns a
    string, and no [group] call of it is ever made on a failed match. *)
Theorem clean_invalid_class_statements_total (diagram : str) :
  ∃ out, clean_invalid_class_statements diagram = Ok out.
Proof. eexists. apply clean_invalid_class_statements_ok. Qed.

(** C9: the output is the join of a subsequence of the input's lines; the
    lines whose trimmed form does not start with [class ] are all in it,
    unchanged and in their original order, so only class statements are
    ever removed.  Unless every line was removed, splitting the output
    gives that subsequence back. *)
Theorem only_class_statements_removed (diagram : str) :
  let lines := split newline diagram in
  let not_class := λ l, startswith (lit "class ") (strip l) = false in
  ∃ kept,
    clean_invalid_class_statements diagram = Ok (join newline kept)
    ∧ kept `sublist_of` lines
    ∧ filter not_class kept = filter not_class lines
    ∧ split newline (join newline kept)
      = match kept with [] => [[]] | _ :: _ => kept end.
Proof.
  intros lines not_class.
  exists (filter (λ l, keeps_line (subgraph_ids_of lines) l = true) lines).
  split; [apply clean_invalid_class_statements_ok|].
  split; [apply sublist_filter|]. split.
  - rewrite list_filter_filter. apply list_filter_iff. intros l.
    unfold not_class. split; [tauto|]. intros H. split; [done|].
    by apply keeps_line_not_class.
  - destruct (filter _ lines) as [|k kept] eqn:E; [done|].
    apply split_join; [done|]. rewrite <- E.
    apply Forall_forall. intros l [_ Hl]%list_elem_of_filter.
    pose proof (split_no_sep newline diagram) as Hall.
    rewrite Forall_forall in Hall. by apply Hall.
Qed.

(** C10: the bareword declaration scan is a prefix match.  A line whose
    trimmed form is [subgraph], one or more whitespace characters, a
    character of [A-Za-z_] and any text whatsoever adds exactly one
    identifier to the set: that character followed by the longest run of
    [A-Za-z0-9_] characters, whatever comes after it.  In particular
    [subgraph API[My Label]] adds [API] and nothing else, so no form of the
    bracket label enters the set. *)
Theorem bareword_scan_is_prefix_match (line ws : str) (c : N) (tail : str) :
  strip line = lit "subgraph" ++ ws ++ c :: tail →
  ws ≠ [] → Forall (λ c, isspace c = true) ws → id_start c = true →
  (∀ subgraph_ids,
     first_pass_body subgraph_ids line
     = Ok (subgraph_ids ∪ {[ c :: take_while id_char tail ]}))
  ∧ (∀ lines, line ∈ lines →
       ∃ subgraph_ids,
         for_each first_pass_body lines ∅ = Ok subgraph_ids
         ∧ c :: take_while id_char tail ∈ subgraph_ids)
  ∧ (∃ declared,
       first_pass_body ∅ (lit "subgraph API[My Label]") = Ok declared
       ∧ ∀ x, x ∈ declared ↔ x = lit "API").
Proof.
  intros Hs Hne Hws Hc. split; [|split].
  - intros ids. rewrite first_pass_body_ok.
    by rewrite (bareword_line_ids line ws c tail).
  - intros lines Hin. eexists. split; [apply first_pass_ok|].
    rewrite (left_id_L ∅ (∪)). apply elem_of_subgraph_ids_of.
    exists line. split; [done|].
    rewrite (bareword_line_ids line ws c tail) by done.
    by apply elem_of_singleton.
  - eexists. split; [apply first_pass_body_ok|].
    rewrite (bareword_line_ids _ (lit " ") (chr "A") (lit "PI[My Label]"));
      [|by vm_compute|done|by repeat constructor|done].
    intros x. rewrite (left_id_L ∅ (∪)). apply elem_of_singleton.
Qed.

Lemma bareword_scan_is_prefix_match_witness :
  (∀ subgraph_ids,
     first_pass_body subgraph_ids (lit "  subgraph Core_2 [Core services]")
     = Ok (subgraph_ids
           ∪ {[ chr "C" :: take_while id_char (lit "ore_2 [Core services]") ]}))
  ∧ (∀ lines, lit "  subgraph Core_2 [Core services]" ∈ lines →
       ∃ subgraph_ids,
         for_each first_pass_body lines ∅ = Ok subgraph_ids
         ∧ chr "C" :: take_while id_char (lit "ore_2 [Core services]")
           ∈ subgraph_ids)
  ∧ (∃ declared,
       first_pass_body ∅ (lit "subgraph API[My Label]") = Ok declared
       ∧ ∀ x, x ∈ declared ↔ x = lit "API").
Proof.
  apply (bareword_scan_is_prefix_match
           (lit "  subgraph Core_2 [Core services]") (lit " ")
           (chr "C") (lit "ore_2 [Core services]"));
    [by vm_compute|done|by repeat constructor|by vm_compute].
Defined.

(** * Further properties of the sanitizer *)

Lemma line_ids_subgraph (line : str) (x : str) :
  x ∈ line_ids line → startswith (lit "subgraph") (strip line) = true.
Proof.
  unfold line_ids, explicit_id, quoted_label, after_keyword. cbv zeta.
  destruct (startswith (lit "subgraph") (strip line)); [done|].
  rewrite (left_id_L ∅ (∪)). by intros ?%not_elem_of_empty.
Qed.

Lemma sanitize_kept_ids (diagram : str) :
  subgraph_ids_of (split newline (sanitize diagram))
  = subgraph_ids_of (split newline diagram).
Proof.
  set (lines := split newline diagram).
  set (ids := subgraph_ids_of lines).
  set (kept := filter (λ l, keeps_line ids l = true) lines).
  change (sanitize diagram) with (join newline kept).
  assert (subgraph_ids_of kept = ids) as Hkept.
  { apply subgraph_ids_of_filter. intros l _ Hl.
    apply line_ids_class, (dropped_is_class ids).
    by destruct (keeps_line ids l). }
  destruct (decide (kept = [])) as [Ek|Ek].
  - rewrite <- Hkept, Ek. by vm_compute.
  - rewrite split_join; [done|done|].
    apply Forall_forall. intros l [_ Hl]%list_elem_of_filter.
    pose proof (split_no_sep newline diagram) as Hall.
    rewrite Forall_forall in Hall. by apply Hall.
Qed.

(** X2: sanitizing leaves the set of subgraph identifiers as it was: the
    first loop collects from the output exactly what it collected from the
    input. *)
Theorem sanitizing_preserves_identifiers (diagram : str) :
  ∃ out subgraph_ids,
    clean_invalid_class_statements diagram = Ok out
    ∧ for_each first_pass_body (split newline diagram) ∅ = Ok subgraph_ids
    ∧ for_each first_pass_body (split newline out) ∅ = Ok subgraph_ids.
Proof.
  exists (sanitize diagram), (subgraph_ids_of (split newline diagram)).
  split; [apply clean_invalid_class_statements_ok|].
  rewrite !first_pass_ok, !(left_id_L ∅ (∪)).
  by rewrite sanitize_kept_ids.
Qed.

Lemma join_length_cons (sep : N) (l : str) (ls : list str) :
  length (join sep (l :: ls))
  = length l + match ls with
               | [] => 0
               | _ :: _ => S (length (join sep ls))
               end.
Proof. destruct ls; cbn [join]; [lia|]. rewrite length_app. by cbn. Qed.

Lemma join_length_sublist (sep : N) (kept lines : list str) :
  kept `sublist_of` lines →
  length (join sep kept) ≤ length (join sep lines).
Proof.
  induction 1 as [|x l1 l2 Hs IH|x l1 l2 Hs IH].
  - done.
  - rewrite !join_length_cons. destruct l1, l2; try lia.
    by apply sublist_nil_r in Hs.
  - rewrite join_length_cons. destruct l2; [|lia].
    apply sublist_nil_r in Hs. subst. cbn. lia.
Qed.

Lemma join_same_length (sep : N) (kept lines : list str) :
  kept `sublist_of` lines →
  length (join sep kept) = length (join sep lines) →
  join sep kept = join sep lines.
Proof.
  induction 1 as [|x l1 l2 Hs IH|x l1 l2 Hs IH].
  - done.
  - rewrite !join_length_cons. destruct l1 as [|a l1], l2 as [|b l2].
    + done.
    + lia.
    + by apply sublist_nil_r in Hs.
    + intros Hlen. rewrite !join_cons by done. rewrite IH; [done|lia].
  - pose proof (join_length_sublist sep _ _ Hs) as Hle.
    rewrite join_length_cons. destruct l2 as [|b l2].
    + apply sublist_nil_r in Hs. subst. cbn [join length].
      intros Hlen. by destruct x.
    + lia.
Qed.

(** X3: the output is never longer than the input, and it has the same
    length only when nothing was removed. *)
Theorem output_not_longer (diagram : str) :
  ∃ out,
    clean_invalid_class_statements diagram = Ok out
    ∧ length out ≤ length diagram
    ∧ (length out = length diagram → out = diagram).
Proof.
  exists (sanitize diagram). split; [apply clean_invalid_class_statements_ok|].
  unfold sanitize. cbv zeta.
  pose proof (join_split newline diagram) as Hd.
  pose proof (sublist_filter
                (λ l, keeps_line (subgraph_ids_of (split newline diagram)) l
                      = true) (split newline diagram)) as Hs.
  pose proof (join_length_sublist newline _ _ Hs) as Hle.
  pose proof (join_same_length newline _ _ Hs) as Heq.
  rewrite Hd in Hle, Heq. done.
Qed.

(** X4: whitespace around a line, indentation or a trailing carriage return
    for instance, changes neither what the line declares nor whether the
    second loop keeps it. *)
Theorem surrounding_whitespace_irrelevant (subgraph_ids : gset str)
  (cleaned_lines : list str) (lead line trail : str) :
  Forall (λ c, isspace c = true) lead →
  Forall (λ c, isspace c = true) trail →
  first_pass_body subgraph_ids (lead ++ line ++ trail)
  = first_pass_body subgraph_ids line
  ∧ (second_pass_body subgraph_ids cleaned_lines (lead ++ line ++ trail)
     = Ok cleaned_lines
     ↔ second_pass_body subgraph_ids cleaned_lines line = Ok cleaned_lines).
Proof.
  intros Hl Ht.
  assert (strip (lead ++ line ++ trail) = strip line) as Hs.
  { unfold strip. by rewrite strip_with_lead, strip_with_trail. }
  split.
  - unfold first_pass_body. by rewrite Hs.
  - rewrite !second_pass_body_ok.
    assert (keeps_line subgraph_ids (lead ++ line ++ trail)
            = keeps_line subgraph_ids line) as ->.
    { unfold keeps_line. by rewrite Hs. }
    destruct (keeps_line subgraph_ids line); [|done].
    split; intros [= H]; apply (f_equal length) in H;
      rewrite length_app in H; cbn in H; lia.
Qed.

Lemma surrounding_whitespace_irrelevant_witness :
  let ids : gset str := {[ lit "API" ]} in
  let line := lit "class API;" in
  first_pass_body ids (lit "    " ++ line ++ [0x0D%N])
  = first_pass_body ids line
  ∧ (second_pass_body ids [] (lit "    " ++ line ++ [0x0D%N]) = Ok []
     ↔ second_pass_body ids [] line = Ok []).
Proof.
  apply surrounding_whitespace_irrelevant; by repeat constructor.
Defined.

Lemma split_app_any (sep : N) (s1 s2 : str) :
  ∃ init last1 head2 tail2,
    split sep s1 = init ++ [last1]
    ∧ split sep s2 = head2 :: tail2
    ∧ split sep (s1 ++ s2) = init ++ (last1 ++ head2) :: tail2.
Proof.
  induction s1 as [|c s1 (init & last1 & head2 & tail2 & H1 & H2 & H3)].
  - pose proof (split_nonempty sep s2) as Hne.
    destruct (split sep s2) as [|head2 tail2] eqn:E; [done|].
    exists [], [], head2, tail2. cbn. by rewrite E.
  - cbn [app split]. rewrite H1, H3. destruct (c =? sep)%N.
    + by exists ([] :: init), last1, head2, tail2.
    + destruct init as [|q init]; cbn.
      * by exists [], (c :: last1), head2, tail2.
      * by exists ((c :: q) :: init), last1, head2, tail2.
Qed.

(** A run of characters without the separator lies inside one piece. *)
Lemma split_infix (sep : N) (u m v : str) :
  sep ∉ m →
  ∃ x y, x ++ m ++ y ∈ split sep (u ++ m ++ v).
Proof.
  intros Hm.
  destruct (split_app_any sep u (m ++ v))
    as (init & last1 & head2 & tail2 & _ & H2 & H3).
  destruct (split_app_head sep m v Hm) as (piece & pieces & _ & H4).
  rewrite H4 in H2. injection H2 as <- <-.
  exists last1, piece. rewrite H3. apply elem_of_app. right. by left.
Qed.

Lemma drop_while_keeps (p : N → bool) (u : str) (a : N) (r : str) :
  p a = false → ∃ u', drop_while p (u ++ a :: r) = u' ++ a :: r.
Proof.
  intros Ha. induction u as [|c u [u' IH]]; cbn.
  - exists []. by rewrite Ha.
  - destruct (p c); [by exists u'|]. by exists (c :: u).
Qed.

(** Stripping keeps what lies between two characters it does not strip. *)
Lemma strip_with_infix (p : N → bool) (x mid y : str) (a c : N) :
  p a = false → p c = false →
  ∃ x' y', strip_with p (x ++ a :: mid ++ c :: y) = x' ++ a :: mid ++ c :: y'.
Proof.
  intros Ha Hc. unfold strip_with, lstrip_with, rstrip_with.
  destruct (drop_while_keeps p x a (mid ++ c :: y) Ha) as [x' ->].
  replace (x' ++ a :: mid ++ c :: y) with ((x' ++ a :: mid) ++ c :: y)
    by (by rewrite <- app_assoc).
  rewrite rev_app_distr. cbn [rev]. rewrite <- app_assoc. cbn [app].
  destruct (drop_while_keeps p (rev y) c (rev (x' ++ a :: mid)) Hc)
    as [y' ->].
  exists x', (rev y'). rewrite rev_app_distr. cbn [rev].
  rewrite rev_involutive, <- !app_assoc. done.
Qed.

Lemma class_keyword_split (s : str) :
  startswith (lit "class ") s = true →
  startswith (lit "class") s = true
  ∧ ∃ r, drop (length (lit "class")) s = chr " " :: r.
Proof.
  intros H%startswith_split. rewrite H.
  split; [done|]. by eexists.
Qed.

Lemma solid_spec (c : N) :
  solid c = true →
  isspace c = false ∧ c ≠ dquote ∧ c ≠ chr "'" ∧ c ≠ chr ",".
Proof.
  unfold solid. rewrite negb_true_iff, !orb_false_iff, !N.eqb_neq. tauto.
Qed.

(** X5: a class statement whose clause has a space between two characters
    that are neither whitespace, quotes nor commas is never kept, whatever
    the identifier set: the piece that holds the space keeps it through
    both trimmings.  Every statement of the form [class A,B styleName] is
    of this kind. *)
Theorem spaced_clause_always_dropped (subgraph_ids : gset str)
  (cleaned_lines : list str) (line u v : str) (a c : N) :
  startswith (lit "class ") (strip line) = true →
  targets_clause (strip line) = u ++ a :: chr " " :: c :: v →
  solid a = true → solid c = true →
  second_pass_body subgraph_ids cleaned_lines line = Ok cleaned_lines.
Proof.
  intros Hclass Hclause Ha Hc.
  apply solid_spec in Ha as (Ha_sp & Ha_dq & Ha_sq & Ha_comma).
  apply solid_spec in Hc as (Hc_sp & Hc_dq & Hc_sq & Hc_comma).
  destruct (class_keyword_split _ Hclass) as (Hkw & r & Hr).
  assert (class_clause (strip line) = Some (targets_clause (strip line)))
    as Hg.
  { unfold class_clause, targets_clause. rewrite Hkw, Hr.
    change (isspace (chr " ")) with true. cbv iota. cbn [drop_while].
    change (isspace (chr " ")) with true. cbv iota.
    unfold targets_clause in Hclause. rewrite Hr in Hclause.
    cbn [drop_while] in Hclause.
    change (isspace (chr " ")) with true in Hclause. cbv iota in Hclause.
    rewrite Hclause. by destruct u. }
  rewrite second_pass_body_ok.
  assert (keeps_line subgraph_ids line = false) as ->; [|done].
  unfold keeps_line. rewrite Hclass, Hg, (class_clause_targets _ _ Hg).
  apply negb_false_iff, existsb_exists. rewrite Hclause.
  destruct (split_infix (chr ",") u [a; chr " "; c] v) as (x & y & Hin).
  { rewrite !elem_of_cons, elem_of_nil. intros [?|[?|[?|[]]]]; done. }
  destruct (strip_with_infix isspace x [chr " "] y a c) as (x1 & y1 & Hs);
    [done..|].
  assert (∀ d, d ≠ dquote → d ≠ chr "'" → mem [dquote; chr "'"] d = false)
    as Hmem.
  { intros d H1 H2. unfold mem. cbn [existsb].
    apply N.eqb_neq in H1, H2. by rewrite H1, H2. }
  destruct (strip_with_infix (mem [dquote; chr "'"]) x1 [chr " "] y1 a c)
    as (x2 & y2 & Hq); [by apply Hmem..|].
  exists (strip_chars [dquote; chr "'"] (strip (x ++ [a; chr " "; c] ++ y))).
  split.
  - apply list_elem_of_In. unfold cleaned_targets.
    apply (list_elem_of_fmap_2
             (λ piece, strip_chars [dquote; chr "'"] (strip piece))).
    exact Hin.
  - unfold bad_target. apply orb_true_iff. left. apply orb_true_iff. right.
    apply contains_spec. unfold strip_chars, strip. cbn [app] in Hs |- *.
    rewrite Hs. cbn [app] in Hq. rewrite Hq.
    apply elem_of_app. right. right. by left.
Qed.

Lemma spaced_clause_always_dropped_witness :
  second_pass_body ∅ [lit "A-->B"] (lit "  class A,B highlight")
  = Ok [lit "A-->B"].
Proof.
  apply (spaced_clause_always_dropped ∅ [lit "A-->B"]
           (lit "  class A,B highlight") (lit "A,") (lit "ighlight")
           (chr "B") (chr "h"));
    by vm_compute.
Defined.

Lemma id_char_facts (c : N) :
  id_char c = true →
  isspace c = false ∧ not_terminator c = true ∧ c ≠ chr ","
  ∧ c ≠ chr " " ∧ c ≠ chr "'" ∧ c ≠ dquote.
Proof.
  unfold id_char, is_upper, is_lower, is_digit, underscore, isspace,
    not_terminator. intros H.
  assert ((0x30 ≤ c ∧ c ≤ 0x39) ∨ (0x41 ≤ c ∧ c ≤ 0x5A) ∨ c = 0x5F
          ∨ (0x61 ≤ c ∧ c ≤ 0x7A))%N as Hc.
  { repeat (apply orb_true_iff in H as [H|H]);
      try (apply andb_true_iff in H as [H1%N.leb_le H2%N.leb_le]);
      try (apply N.eqb_eq in H); tauto. }
  clear H. unfold chr, dquote. cbn [N_of_ascii N_of_digits].
  repeat split;
    rewrite ?negb_true_iff, ?orb_false_iff, ?andb_false_iff, ?N.eqb_neq,
      ?N.leb_gt; lia.
Qed.

Lemma strip_with_unchanged (p : N → bool) (s : str) :
  Forall (λ c, p c = false) s → strip_with p s = s.
Proof.
  assert (∀ t, Forall (λ c, p c = false) t → drop_while p t = t) as Hd.
  { intros t [|c t' Hc _]; [done|]. cbn. by rewrite Hc. }
  intros H. unfold strip_with, lstrip_with, rstrip_with.
  rewrite (Hd s H), (Hd (rev s)) by (by apply Forall_rev).
  apply rev_involutive.
Qed.

Lemma take_while_whole (p : N → bool) (s : str) :
  Forall (λ c, p c = true) s → take_while p s = s.
Proof. induction 1 as [|c s Hc _ IH]; [done|]. cbn. by rewrite Hc, IH. Qed.

Lemma join_Forall (P : N → Prop) (sep : N) (pieces : list str) :
  P sep → Forall (Forall P) pieces → Forall P (join sep pieces).
Proof.
  intros Hsep. induction 1 as [|piece pieces Hp Hps IH]; [constructor|].
  destruct pieces as [|piece' pieces]; [done|].
  rewrite join_cons by done. apply Forall_app. split; [done|].
  by constructor.
Qed.

(** X6: a class statement made of [class ], bareword targets separated by
    commas and then the end of the line or a terminator is judged on the
    identifier set alone: the second loop keeps it exactly when none of
    the barewords is in the set. *)
Theorem bareword_statement_kept_iff (subgraph_ids : gset str)
  (cleaned_lines : list str) (line : str) (names : list str) (tail : str) :
  strip line = lit "class " ++ join (chr ",") names ++ tail →
  names ≠ [] →
  Forall (λ name, name ≠ [] ∧ Forall (λ c, id_char c = true) name) names →
  match tail with [] => True | t :: _ => is_terminator t end →
  second_pass_body subgraph_ids cleaned_lines line
  = Ok (if existsb (λ name, bool_decide (name ∈ subgraph_ids)) names
        then cleaned_lines
        else cleaned_lines ++ [line]).
Proof.
  intros Hs Hne Hnames Htail.
  assert (Forall (Forall (λ c, id_char c = true)) names) as Hid.
  { eapply Forall_impl; [exact Hnames|]. by intros ? [_ ?]. }
  assert (cleaned_targets (join (chr ",") names) = names) as Hct.
  { unfold cleaned_targets. rewrite split_join; [|done|].
    - rewrite <- (map_id names) at 2. apply map_ext_Forall.
      eapply Forall_impl; [exact Hid|]. intros name Hn. cbv beta.
      unfold strip, strip_chars.
      rewrite (strip_with_unchanged isspace name).
      + apply strip_with_unchanged. eapply Forall_impl; [exact Hn|].
        intros c (_ & _ & _ & _ & Hq & Hdq)%id_char_facts.
        unfold mem. cbn [existsb].
        apply N.eqb_neq in Hq, Hdq. by rewrite Hq, Hdq.
      + eapply Forall_impl; [exact Hn|]. intros c Hc.
        by apply id_char_facts in Hc as (? & _).
    - eapply Forall_impl; [exact Hid|]. intros name Hn Hin.
      rewrite Forall_forall in Hn. apply Hn in Hin.
      by apply id_char_facts in Hin as (_ & _ & ? & _). }
  assert (Forall (λ c, not_terminator c = true) (join (chr ",") names))
    as Hnt.
  { apply join_Forall; [done|]. eapply Forall_impl; [exact Hid|].
    intros name Hn. eapply Forall_impl; [exact Hn|]. intros c Hc.
    by apply id_char_facts in Hc as (_ & ? & _). }
  assert (∃ c0 rest, join (chr ",") names = c0 :: rest ∧ isspace c0 = false)
    as (c0 & rest & Hc0 & Hsp).
  { destruct names as [|name names]; [done|].
    inversion Hnames as [|? ? [Hn Hch] _]; subst.
    destruct name as [|c0 name]; [done|]. inversion Hch; subst.
    destruct names as [|name' names].
    - exists c0, name. split; [done|]. by apply id_char_facts.
    - rewrite join_cons by done. eexists c0, _. split; [done|].
      by apply id_char_facts. }
  remember (join (chr ",") names) as clause eqn:Eclause.
  clear Eclause Hnames Hne.
  assert (take_while not_terminator (drop_while isspace (clause ++ tail))
          = clause) as Htw.
  { assert (drop_while isspace (clause ++ tail) = clause ++ tail) as ->.
    { rewrite Hc0. cbn [app drop_while]. by rewrite Hsp. }
    destruct tail as [|t tail].
    - rewrite app_nil_r. by apply take_while_whole.
    - apply while_app_stop; [done|].
      destruct (not_terminator t) eqn:E; [|done].
      by apply not_terminator_spec in E. }
  assert (targets_clause (strip line) = clause) as Htc.
  { unfold targets_clause. rewrite Hs.
    change (drop _ (lit "class " ++ clause ++ tail))
      with (chr " " :: clause ++ tail).
    cbn [drop_while]. by change (isspace (chr " ")) with true. }
  assert (class_clause (strip line) = Some clause) as Hg.
  { unfold class_clause. rewrite Hs.
    change (startswith (lit "class") (lit "class " ++ clause ++ tail))
      with true. cbv iota.
    change (drop _ (lit "class " ++ clause ++ tail))
      with (chr " " :: clause ++ tail).
    change (isspace (chr " ")) with true. cbv iota.
    rewrite Htw. by rewrite Hc0. }
  rewrite second_pass_body_ok. unfold keeps_line.
  assert (startswith (lit "class ") (strip line) = true) as ->.
  { rewrite Hs. apply startswith_app. }
  rewrite Hg, (class_clause_targets _ _ Hg), Htc, Hct.
  assert (existsb (bad_target subgraph_ids) names
          = existsb (λ name, bool_decide (name ∈ subgraph_ids)) names) as ->.
  { clear -Hid. induction Hid as [|name names Hn _ IH]; [done|].
    cbn [existsb]. rewrite IH. f_equal. unfold bad_target.
    assert (contains (chr " ") name = false) as ->.
    { apply not_true_iff_false. rewrite contains_spec. intros Hin.
      rewrite Forall_forall in Hn. apply Hn in Hin.
      by apply id_char_facts in Hin as (_ & _ & _ & ? & _). }
    assert (contains (chr "'") name = false) as ->.
    { apply not_true_iff_false. rewrite contains_spec. intros Hin.
      rewrite Forall_forall in Hn. apply Hn in Hin.
      by apply id_char_facts in Hin as (_ & _ & _ & _ & ? & _). }
    by rewrite !orb_false_r. }
  by destruct (existsb _ names).
Qed.

Lemma bareword_statement_kept_iff_witness :
  second_pass_body {[ lit "API" ]} [] (lit "  class A,B_2;")
  = Ok (if existsb (λ name, bool_decide (name ∈ ({[ lit "API" ]} : gset str)))
             [lit "A"; lit "B_2"]
        then []
        else [] ++ [lit "  class A,B_2;"]).
Proof.
  apply (bareword_statement_kept_iff {[ lit "API" ]} [] (lit "  class A,B_2;")
           [lit "A"; lit "B_2"] (lit ";")).
  - by vm_compute.
  - done.
  - repeat constructor; done.
  - by left.
Defined.

(** * The request handler *)

Lemma replace_from_drop (old new : str) (k : nat) (s : str) :
  replace_from old new k s = replace old new (drop k s).
Proof.
  unfold replace. revert s. induction k as [|k IH]; intros [|c s]; try done.
  cbn [replace_from drop]. apply IH.
Qed.

Lemma replace_cons (old new : str) (c : N) (s : str) :
  replace old new (c :: s)
  = if startswith old (c :: s)
    then new ++ replace old new (drop (length old - 1) s)
    else c :: replace old new s.
Proof.
  unfold replace at 1. cbn [replace_from].
  by rewrite replace_from_drop.
Qed.

Lemma startswith_cons (a : N) (p : str) (c : N) (s : str) :
  startswith (a :: p) (c :: s) = (a =? c)%N && startswith p s.
Proof. done. Qed.

Lemma startswith_tick (s : str) :
  startswith [tick] s = false →
  replace fence [] s
  = match s with [] => [] | c :: s' => c :: replace fence [] s' end
  ∧ startswith [tick] (replace fence [] s) = false.
Proof.
  destruct s as [|c s]; [done|]. intros H. rewrite replace_cons.
  change fence with [tick; tick; tick].
  rewrite !startswith_cons in *.
  destruct (tick =? c)%N eqn:E; cbn [andb] in H |- *; [discriminate H|].
  by rewrite startswith_cons, E.
Qed.

Lemma startswith_two_ticks (s : str) :
  startswith [tick; tick] s = false →
  startswith [tick; tick] (replace fence [] s) = false.
Proof.
  destruct s as [|d s]; [done|]. intros H. rewrite replace_cons.
  change fence with [tick; tick; tick].
  rewrite !startswith_cons in *.
  destruct (tick =? d)%N eqn:Ed; cbn [andb] in H |- *.
  - assert (startswith [tick; tick] s = false) as ->.
    { destruct s as [|e s]; [done|]. rewrite !startswith_cons in *.
      destruct (tick =? e)%N; [discriminate H|done]. }
    rewrite startswith_cons, Ed. cbn [andb]. by apply startswith_tick.
  - by rewrite startswith_cons, Ed.
Qed.

(** After [replace(fence, empty)] the text does not start with a fence. *)
Lemma replace_fence_head (n : nat) (s : str) :
  length s ≤ n → startswith fence (replace fence [] s) = false.
Proof.
  revert s. induction n as [|n IH]; intros [|c s] Hlen; try done.
  { cbn in Hlen. lia. }
  rewrite replace_cons. destruct (startswith fence (c :: s)) eqn:E.
  - cbn [app]. apply IH. cbn in Hlen. rewrite length_drop. lia.
  - change fence with [tick; tick; tick] in E |- *.
    rewrite !startswith_cons in *.
    destruct (tick =? c)%N; cbn [andb] in E |- *; [|done].
    by apply startswith_two_ticks.
Qed.

Lemma replace_fence_clean (n : nat) (s : str) :
  length s ≤ n → contains_sub fence (replace fence [] s) = false.
Proof.
  revert s. induction n as [|n IH]; intros [|c s] Hlen; try done.
  { cbn in Hlen. lia. }
  pose proof (replace_fence_head (S n) (c :: s) Hlen) as Hhead.
  rewrite replace_cons in Hhead |- *.
  destruct (startswith fence (c :: s)).
  - cbn [app]. apply IH. cbn in Hlen. rewrite length_drop. lia.
  - cbn [contains_sub]. rewrite Hhead. cbn [orb]. apply IH.
    cbn in Hlen. lia.
Qed.

Lemma contains_sub_spec (sub s : str) :
  contains_sub sub s = true ↔ ∃ pre post, s = pre ++ sub ++ post.
Proof.
  split.
  - induction s as [|c s IH]; cbn [contains_sub].
    + rewrite orb_false_r. intros H%startswith_split. by exists [], (drop (length sub) []).
    + intros [H%startswith_split|H]%orb_true_iff.
      * by exists [], (drop (length sub) (c :: s)).
      * destruct (IH H) as (pre & post & ->). by exists (c :: pre), post.
  - intros (pre & post & ->). induction pre as [|c pre IH].
    + cbn [app]. destruct (sub ++ post) eqn:E; cbn [contains_sub];
        rewrite <- E, startswith_app; done.
    + cbn [app contains_sub]. rewrite IH. apply orb_true_r.
Qed.

Lemma contains_sub_strip_with (p : N → bool) (sub s : str) :
  contains_sub sub (strip_with p s) = true → contains_sub sub s = true.
Proof.
  rewrite !contains_sub_spec. intros (pre & post & Hs).
  destruct (strip_with_decompose p s) as (lead & trail & Hd & _).
  exists (lead ++ pre), (post ++ trail). rewrite Hd at 1. rewrite Hs.
  by rewrite <- !app_assoc.
Qed.

Lemma startswith_before_sep (sep : N) (sub l rest : str) :
  sep ∉ sub → startswith sub (l ++ sep :: rest) = true →
  startswith sub l = true.
Proof.
  revert l. induction sub as [|a sub IH]; intros l Hn; [done|].
  destruct l as [|c l]; cbn [app]; rewrite startswith_cons.
  - intros [Ha%N.eqb_eq _]%andb_true_iff. subst. exfalso. apply Hn. by left.
  - rewrite startswith_cons. intros [-> H]%andb_true_iff. cbn [andb].
    apply IH; [|done]. intros ?. apply Hn. by right.
Qed.

Lemma contains_sub_across_sep (sep : N) (sub l rest : str) :
  sep ∉ sub → sub ≠ [] →
  contains_sub sub (l ++ sep :: rest) = true →
  contains_sub sub l = true ∨ contains_sub sub rest = true.
Proof.
  intros Hn Hne. induction l as [|c l IH]; cbn [app contains_sub].
  - intros [H|H]%orb_true_iff; [|by right].
    apply (startswith_before_sep sep sub [] rest Hn) in H. by destruct sub.
  - intros [H|H]%orb_true_iff.
    + left. apply (startswith_before_sep sep sub (c :: l) rest Hn) in H.
      by rewrite H.
    + destruct (IH H) as [Hl|Hr]; [left|by right].
      rewrite Hl. apply orb_true_r.
Qed.

Lemma contains_sub_join (sep : N) (sub : str) (pieces : list str) :
  sep ∉ sub → sub ≠ [] →
  contains_sub sub (join sep pieces) = true →
  ∃ piece, piece ∈ pieces ∧ contains_sub sub piece = true.
Proof.
  intros Hn Hne. induction pieces as [|piece pieces IH].
  - cbn. by destruct sub.
  - destruct pieces as [|piece' pieces].
    + cbn [join]. intros H. exists piece. split; [by left|done].
    + rewrite join_cons by done.
      intros [H|H]%(contains_sub_across_sep sep sub _ _ Hn Hne).
      * exists piece. split; [by left|done].
      * destruct (IH H) as (q & Hq & Hc). exists q. split; [by right|done].
Qed.

Lemma contains_sub_piece (sep : N) (sub piece : str) (pieces : list str) :
  piece ∈ pieces → contains_sub sub piece = true →
  contains_sub sub (join sep pieces) = true.
Proof.
  intros Hin (pre & post & ->)%contains_sub_spec.
  apply contains_sub_spec.
  induction pieces as [|q pieces IH]; [by apply elem_of_nil in Hin|].
  apply elem_of_cons in Hin as [<-|Hin].
  - destruct pieces as [|q' pieces].
    + by exists pre, post.
    + rewrite join_cons by done. exists pre, (post ++ sep :: join sep (q' :: pieces)).
      by rewrite <- !app_assoc.
  - destruct (IH Hin) as (pre' & post' & Hj).
    destruct pieces as [|q' pieces]; [by apply elem_of_nil in Hin|].
    rewrite join_cons by done. rewrite Hj.
    exists (q ++ sep :: pre'), post'. by rewrite <- !app_assoc.
Qed.

(** The sanitizer brings in no text that has no newline: what occurs in its
    output occurred in its input. *)
Lemma sanitize_no_new_text (sub diagram : str) :
  newline ∉ sub → sub ≠ [] →
  contains_sub sub (sanitize diagram) = true →
  contains_sub sub diagram = true.
Proof.
  intros Hn Hne H. unfold sanitize in H. cbv zeta in H.
  apply (contains_sub_join newline sub _ Hn Hne) in H
    as (line & [_ Hin]%list_elem_of_filter & Hc).
  rewrite <- (join_split newline diagram).
  by apply (contains_sub_piece newline sub line).
Qed.

Lemma unfenced_no_fence (text : str) :
  contains_sub fence (unfenced text) = false.
Proof.
  unfold unfenced, strip.
  destruct (contains_sub fence (strip_with isspace _)) eqn:E; [|done].
  apply contains_sub_strip_with in E.
  by rewrite (replace_fence_clean _ _ (le_n _)) in E.
Qed.

Lemma longer_than_spec (n : N) (s : str) :
  longer_than n s = false ↔ (N.of_nat (length s) ≤ n)%N.
Proof. unfold longer_than. rewrite N.ltb_ge. done. Qed.

Lemma truthy_spec (s : str) : truthy s = true ↔ s ≠ [].
Proof. by destruct s. Qed.

(** What the [try] block does once the checks have passed. *)
Lemma modify_try_valid (P : str)
  (call : str → gmap string str → Z → outcome exception str)
  (body : ModifyRequest) :
  passes_validation body →
  modify_try P call body
  = match call P (modify_data body) 1000%Z with
    | Raises e => Raises e
    | Returns text =>
        if contains_sub (lit "BAD_INSTRUCTIONS") text
        then Returns {[ "error" := lit "Invalid or unclear instructions provided" ]}
        else Returns {[ "diagram" := sanitize (unfenced text) ]}
    end.
Proof.
  intros (Hi & Hd & Hli & Hld & Hr). unfold modify_try.
  apply truthy_spec in Hi as ->. apply truthy_spec in Hd as ->.
  apply longer_than_spec in Hli as ->. apply longer_than_spec in Hld as ->.
  rewrite bool_decide_false by done. cbn [negb orb].
  fold (modify_data body). destruct (call P (modify_data body) 1000%Z); [|done].
  destruct (contains_sub _ a); [done|]. cbv zeta. fold (unfenced a).
  by rewrite clean_invalid_class_statements_ok.
Qed.

Lemma modify_try_invalid (P : str) (body : ModifyRequest) :
  ¬ passes_validation body →
  ∃ msg, msg ∈ validation_errors
         ∧ ∀ call, modify_try P call body = Returns {[ "error" := msg ]}.
Proof.
  intros Hnot. unfold modify_try.
  destruct (truthy (instructions body)) eqn:Hi; cbn [negb orb];
    [|eexists; split; [|done]; by left].
  destruct (truthy (current_diagram body)) eqn:Hd; cbn [negb orb];
    [|eexists; split; [|done]; by left].
  destruct (longer_than 1000 (instructions body)) eqn:Hli; cbn [orb];
    [eexists; split; [|done]; right; by left|].
  destruct (longer_than 100000 (current_diagram body)) eqn:Hld;
    [eexists; split; [|done]; right; by left|].
  destruct (bool_decide (repo body ∈ example_repos)) eqn:Hr;
    [eexists; split; [|done]; right; right; by left|].
  exfalso. apply Hnot. repeat split.
  - by apply truthy_spec.
  - by apply truthy_spec.
  - by apply longer_than_spec.
  - by apply longer_than_spec.
  - by apply bool_decide_eq_false in Hr.
Qed.

Lemma passes_validation_dec (body : ModifyRequest) :
  passes_validation body ∨ ¬ passes_validation body.
Proof.
  unfold passes_validation.
  destruct (decide (instructions body = [])); [right; tauto|].
  destruct (decide (current_diagram body = [])); [right; tauto|].
  destruct (decide (N.of_nat (length (instructions body)) ≤ 1000)%N);
    [|right; tauto].
  destruct (decide (N.of_nat (length (current_diagram body)) ≤ 100000)%N);
    [|right; tauto].
  destruct (decide (repo body ∈ example_repos)); [right; tauto|].
  left. tauto.
Qed.

Lemma Returns_inj {E A : Type} (a b : A) :
  @Returns E A a = Returns b → a = b.
Proof.
  intros H.
  exact (f_equal (λ o, match o with Returns x => x | Raises _ => a end) H).
Qed.

Lemma response_keys_differ (d msg : str) :
  ({[ "error" := msg ]} : gmap string str) ≠ {[ "diagram" := d ]}.
Proof.
  intros H. apply (f_equal (lookup "diagram")) in H.
  by rewrite lookup_singleton_ne, lookup_singleton_eq in H.
Qed.

Lemma response_diagram_inj (d d' : str) :
  ({[ "diagram" := d ]} : gmap string str) = {[ "diagram" := d' ]} → d = d'.
Proof.
  intros H. apply (f_equal (lookup "diagram")) in H.
  rewrite !lookup_singleton_eq in H. by injection H.
Qed.

(** The five ways [modify] ends. *)
Lemma modify_cases (lower : str → str) (P : str)
  (call : str → gmap string str → Z → outcome exception str)
  (body : ModifyRequest) :
  (¬ passes_validation body
   ∧ ∃ msg, modify lower P call body = Returns {[ "error" := msg ]})
  ∨ (passes_validation body
     ∧ ((∃ e, call P (modify_data body) 1000%Z = Raises e
              ∧ rate_limited lower (exc_str e) = true
              ∧ modify lower P call body = Raises too_many_requests)
        ∨ (∃ e, call P (modify_data body) 1000%Z = Raises e
                ∧ rate_limited lower (exc_str e) = false
                ∧ modify lower P call body
                  = Returns {[ "error" := exc_str e ]})
        ∨ (∃ text, call P (modify_data body) 1000%Z = Returns text
                   ∧ contains_sub (lit "BAD_INSTRUCTIONS") text = true
                   ∧ ∃ msg, modify lower P call body
                            = Returns {[ "error" := msg ]})
        ∨ (∃ text, call P (modify_data body) 1000%Z = Returns text
                   ∧ contains_sub (lit "BAD_INSTRUCTIONS") text = false
                   ∧ modify lower P call body
                     = Returns {[ "diagram" := sanitize (unfenced text) ]}))).
Proof.
  destruct (passes_validation_dec body) as [Hv|Hv].
  - right. split; [done|]. unfold modify. rewrite modify_try_valid by done.
    destruct (call P (modify_data body) 1000%Z) as [text|e] eqn:Ec.
    + destruct (contains_sub (lit "BAD_INSTRUCTIONS") text) eqn:Eb.
      * right. right. left. exists text. eauto.
      * right. right. right. exists text. eauto.
    + fold (rate_limited lower (exc_str e)).
      destruct (rate_limited lower (exc_str e)) eqn:Er.
      * left. exists e. eauto.
      * right. left. exists e. eauto.
  - left. split; [done|].
    destruct (modify_try_invalid P body Hv) as (msg & _ & Hm).
    exists msg. unfold modify. by rewrite Hm.
Qed.

(** X7: [modify] returns a diagram exactly when the request passes the
    checks, the model returns a text without the failure token, and the
    diagram is the sanitizer's output on that text with its fences removed
    and trimmed. *)
Theorem modify_returns_diagram_iff (lower : str → str) (P : str)
  (call : str → gmap string str → Z → outcome exception str)
  (body : ModifyRequest) (d : str) :
  modify lower P call body = Returns {[ "diagram" := d ]}
  ↔ passes_validation body
    ∧ ∃ text,
        call P (modify_data body) 1000%Z = Returns text
        ∧ contains_sub (lit "BAD_INSTRUCTIONS") text = false
        ∧ clean_invalid_class_statements
            (strip (replace fence []
                      (replace (lit "```mermaid") [] text)))
          = Ok d.
Proof.
  fold unfenced. split.
  - intros H.
    destruct (modify_cases lower P call body)
      as [(_ & msg & Hm)|(Hv & [(e & _ & _ & Hm)|[(e & _ & _ & Hm)|
           [(t & _ & _ & msg & Hm)|(t & Hc & Hb & Hm)]]])];
      rewrite Hm in H; try discriminate H; apply Returns_inj in H;
      try (by apply response_keys_differ in H).
    apply response_diagram_inj in H. split; [done|]. exists t.
    split; [done|]. split; [done|].
    rewrite clean_invalid_class_statements_ok. by rewrite <- H.
  - intros (Hv & text & Hc & Hb & Hd). unfold modify.
    rewrite modify_try_valid, Hc, Hb by done.
    fold (unfenced text) in Hd.
    rewrite clean_invalid_class_statements_ok in Hd. by injection Hd as ->.
Qed.

Lemma modify_diagram_origin (lower : str → str) (P : str)
  (call : str → gmap string str → Z → outcome exception str)
  (body : ModifyRequest) (response : gmap string str) (d : str) :
  modify lower P call body = Returns response →
  response !! "diagram" = Some d →
  ∃ text, d = sanitize (unfenced text).
Proof.
  intros H Hd.
  destruct (modify_cases lower P call body)
    as [(_ & msg & Hm)|(Hv & [(e & _ & _ & Hm)|[(e & _ & _ & Hm)|
         [(t & _ & _ & msg & Hm)|(t & Hc & Hb & Hm)]]])];
    rewrite Hm in H; try discriminate H; apply Returns_inj in H as <-;
    try (by rewrite lookup_singleton_ne in Hd).
  rewrite lookup_singleton_eq in Hd. injection Hd as <-. by exists t.
Qed.

(** X8: a diagram that [modify] returns contains no markdown fence: three
    backticks in a row never reach the caller. *)
Theorem modify_diagram_has_no_fence (lower : str → str) (P : str)
  (call : str → gmap string str → Z → outcome exception str)
  (body : ModifyRequest) (response : gmap string str) (d : str) :
  modify lower P call body = Returns response →
  response !! "diagram" = Some d →
  contains_sub fence d = false.
Proof.
  intros H Hd.
  destruct (modify_diagram_origin _ _ _ _ _ _ H Hd) as (text & ->).
  destruct (contains_sub fence (sanitize (unfenced text))) eqn:E; [|done].
  apply sanitize_no_new_text in E.
  - by rewrite unfenced_no_fence in E.
  - intros Hin%(bool_decide_pack _). by vm_compute in Hin.
  - done.
Qed.

Lemma modify_diagram_has_no_fence_witness :
  contains_sub fence
    (join newline [lit "flowchart TD"; lit "  A-->B"; lit "  class A;"])
  = false.
Proof.
  apply (modify_diagram_has_no_fence (map ascii_lower) (lit "SYSTEM")
           (λ _ _ _, Returns sample_reply) sample_request
           {[ "diagram" :=
                join newline
                  [lit "flowchart TD"; lit "  A-->B"; lit "  class A;"] ]});
    by vm_compute.
Defined.

(** X9: a diagram that [modify] returns is a fixed point of the sanitizer:
    sanitizing it again changes nothing. *)
Theorem modify_diagram_is_sanitized (lower : str → str) (P : str)
  (call : str → gmap string str → Z → outcome exception str)
  (body : ModifyRequest) (response : gmap string str) (d : str) :
  modify lower P call body = Returns response →
  response !! "diagram" = Some d →
  clean_invalid_class_statements d = Ok d.
Proof.
  intros H Hd.
  destruct (modify_diagram_origin _ _ _ _ _ _ H Hd) as (text & ->).
  rewrite clean_invalid_class_statements_ok. by rewrite sanitize_idempotent.
Qed.

Lemma modify_diagram_is_sanitized_witness :
  let d := join newline [lit "flowchart TD"; lit "  A-->B"; lit "  class A;"] in
  clean_invalid_class_statements d = Ok d.
Proof.
  apply (modify_diagram_is_sanitized (map ascii_lower) (lit "SYSTEM")
           (λ _ _ _, Returns sample_reply) sample_request
           {[ "diagram" :=
                join newline
                  [lit "flowchart TD"; lit "  A-->B"; lit "  class A;"] ]});
    by vm_compute.
Defined.

(** X10: [modify] raises an [HTTPException] exactly when the request passes
    the checks and the model call raises an exception, one that
    [except Exception] catches, whose message contains [429] or, in lower
    case, [rate limit]; it is then the 429 exception with its fixed
    detail.  A caught exception without such a message is not raised
    again: it is answered with an error response that holds its
    message. *)
Theorem modify_raises_iff (lower : str → str) (P : str)
  (call : str → gmap string str → Z → outcome exception str)
  (body : ModifyRequest) :
  (∀ h,
     modify lower P call body = Raises h
     ↔ h = {| status_code := 429; detail := rate_limit_detail |}
       ∧ passes_validation body
       ∧ ∃ e, call P (modify_data body) 1000%Z = Raises e
              ∧ (contains_sub (lit "429") (exc_str e)
                 || contains_sub (lit "rate limit") (lower (exc_str e)))
                = true)
  ∧ (∀ e,
       passes_validation body →
       call P (modify_data body) 1000%Z = Raises e →
       (contains_sub (lit "429") (exc_str e)
        || contains_sub (lit "rate limit") (lower (exc_str e))) = false →
       modify lower P call body = Returns {[ "error" := exc_str e ]}).
Proof.
  split.
  - intros h. split.
    + intros H.
      destruct (modify_cases lower P call body)
        as [(_ & msg & Hm)|(Hv & [(e & Hc & Hr & Hm)|[(e & _ & _ & Hm)|
             [(t & _ & _ & msg & Hm)|(t & _ & _ & Hm)]]])];
        rewrite Hm in H; try discriminate H.
      injection H as <-. split; [done|]. split; [done|]. by exists e.
    + intros (-> & Hv & e & Hc & Hr). unfold modify.
      rewrite modify_try_valid, Hc by done. by rewrite Hr.
  - intros e Hv Hc Hr. unfold modify.
    rewrite modify_try_valid, Hc by done. by rewrite Hr.
Qed.

(** X11: a response of [modify] has exactly one key: [diagram] or
    [error]. *)
Theorem modify_response_shape (lower : str → str) (P : str)
  (call : str → gmap string str → Z → outcome exception str)
  (body : ModifyRequest) (response : gmap string str) :
  modify lower P call body = Returns response →
  (∃ d, response = {[ "diagram" := d ]})
  ∨ (∃ msg, response = {[ "error" := msg ]}).
Proof.
  intros H.
  destruct (modify_cases lower P call body)
    as [(_ & msg & Hm)|(Hv & [(e & _ & _ & Hm)|[(e & _ & _ & Hm)|
         [(t & _ & _ & msg & Hm)|(t & _ & _ & Hm)]]])];
    rewrite Hm in H; try discriminate H; apply Returns_inj in H as <-;
    eauto.
Qed.

Lemma modify_response_shape_witness :
  (∃ d, ({[ "error" := lit "Example repos cannot be modified" ]}
         : gmap string str) = {[ "diagram" := d ]})
  ∨ (∃ msg, ({[ "error" := lit "Example repos cannot be modified" ]}
             : gmap string str) = {[ "error" := msg ]}).
Proof.
  apply (modify_response_shape (map ascii_lower) (lit "SYSTEM")
           (λ _ _ _, Returns sample_reply)
           {| instructions := lit "rename a node";
              current_diagram := lit "flowchart TD";
              repo := lit "fastapi";
              username := lit "ach-raf";
              explanation := [] |}).
  by vm_compute.
Defined.

(** X12: a request that fails a check is answered with one of the three
    check messages without regard to the model: the response is the same
    whatever the model call would do. *)
Theorem modify_rejects_before_model (lower : str → str) (P : str)
  (body : ModifyRequest) :
  ¬ passes_validation body →
  ∃ msg,
    msg ∈ validation_errors
    ∧ ∀ call, modify lower P call body = Returns {[ "error" := msg ]}.
Proof.
  intros Hv. destruct (modify_try_invalid P body Hv) as (msg & Hin & Hm).
  exists msg. split; [done|]. intros call. unfold modify. by rewrite Hm.
Qed.

Lemma modify_rejects_before_model_witness :
  ∃ msg,
    msg ∈ validation_errors
    ∧ ∀ call,
        modify (map ascii_lower) (lit "SYSTEM") call
          {| instructions := lit "rename a node";
             current_diagram := [];
             repo := lit "gitdiagram";
             username := lit "ach-raf";
             explanation := [] |}
        = Returns {[ "error" := msg ]}.
Proof.
  apply modify_rejects_before_model.
  intros (_ & H & _). by apply H.
Defined.

(** * The service *)

(** X13: [call_gemini_api] never returns an empty text.  It returns the
    text of the response when there is one, raises [ValueError] when the
    text is missing or empty, and lets an exception of the client through
    as it is; in both failures the last line printed reports the
    exception. *)
Theorem call_gemini_api_outcome {G : genai}
  (format_user_message : gmap string str → str) (self : GeminiService G)
  (system_prompt : str) (data : gmap string str) (api_key : option str)
  (thinking_budget : Z) :
  let response :=
    generate_content G (select_client self api_key) (model self)
      (format_user_message data) system_prompt in
  let result :=
    call_gemini_api format_user_message self system_prompt data api_key
      thinking_budget in
  match result.2 with
  | Returns text => text ≠ [] ∧ response = Returns (Some text)
  | Raises e =>
      (response = Raises e
       ∨ (e = no_content
          ∧ ∃ text, response = Returns text ∧ truthy_opt text = false))
      ∧ last result.1
        = Some (lit "Error in Google Gemini API call: " ++ exc_str e)
  end.
Proof.
  cbv zeta. unfold call_gemini_api. cbv zeta.
  destruct (generate_content G _ _ _ _) as [[[|c t]|]|e]; cbn [snd fst].
  - split; [right; split; [done|]; by exists (Some [])|].
    by rewrite last_snoc.
  - done.
  - split; [right; split; [done|]; by exists None|]. by rewrite last_snoc.
  - split; [by left|]. by rewrite last_snoc.
Qed.

Lemma service_call_outcome {G : genai}
  (format_user_message : gmap string str → str) (self : GeminiService G)
  (system_prompt : str) (data : gmap string str) (thinking_budget : Z) :
  service_call format_user_message self system_prompt data thinking_budget
  = match
      generate_content G (default_client self) (model self)
        (format_user_message data) system_prompt
    with
    | Returns (Some (c :: t)) => Returns (c :: t)
    | Returns _ => Raises no_content
    | Raises e => Raises e
    end.
Proof.
  unfold service_call, call_gemini_api, select_client. cbn [truthy_opt].
  cbv zeta. by destruct (generate_content G _ _ _ _) as [[[|c t]|]|e].
Qed.

Lemma no_content_not_rate_limited (lower : str → str) :
  (∀ s, is_ascii s → lower s = map ascii_lower s) →
  rate_limited lower (exc_str no_content) = false.
Proof.
  intros Hlower. unfold rate_limited. rewrite Hlower.
  - by vm_compute.
  - apply (bool_decide_unpack _). by vm_compute.
Qed.

(** X14: [modify] over the service, end to end.  For a request that passes
    the checks the response is decided by what the default client does:
    an exception becomes the 429 error or an error response with its
    message; a missing or empty text becomes the error response
    [No content returned from Google Gemini]; a text with the failure
    token becomes an error response; any other text becomes the sanitized
    diagram. *)
Theorem modify_over_service {G : genai} (lower : str → str)
  (format_user_message : gmap string str → str) (P : str)
  (self : GeminiService G) (body : ModifyRequest) :
  (∀ s, is_ascii s → lower s = map ascii_lower s) →
  passes_validation body →
  modify lower P (service_call format_user_message self) body
  = match
      generate_content G (default_client self) (model self)
        (format_user_message (modify_data body)) P
    with
    | Raises e =>
        if rate_limited lower (exc_str e) then Raises too_many_requests
        else Returns {[ "error" := exc_str e ]}
    | Returns (Some (c :: t)) =>
        if contains_sub (lit "BAD_INSTRUCTIONS") (c :: t)
        then Returns {[ "error" := lit "Invalid or unclear instructions provided" ]}
        else Returns {[ "diagram" := sanitize (unfenced (c :: t)) ]}
    | Returns _ =>
        Returns {[ "error" := lit "No content returned from Google Gemini" ]}
    end.
Proof.
  intros Hlower Hv. unfold modify.
  rewrite modify_try_valid, service_call_outcome by done.
  pose proof (no_content_not_rate_limited lower Hlower) as Hn.
  unfold rate_limited in Hn |- *.
  destruct (generate_content G _ _ _ _) as [[[|c t]|]|e].
  - by rewrite Hn.
  - by destruct (contains_sub _ (c :: t)).
  - by rewrite Hn.
  - done.
Qed.

Lemma modify_over_service_witness :
  modify (map ascii_lower) (lit "SYSTEM")
    (service_call (λ data, default [] (data !! "diagram"))
       (GeminiService_init sample_genai None))
    sample_request
  = Returns {[ "diagram" :=
                 join newline
                   [lit "flowchart TD"; lit "  A-->B"; lit "  class A;"] ]}.
Proof.
  rewrite (modify_over_service (G := sample_genai) (map ascii_lower)).
  - by vm_compute.
  - done.
  - repeat split; try done; try (by vm_compute).
    intros H%(bool_decide_pack _). by vm_compute in H.
Defined.

Lemma yielded_chunks (chunks : list (option str)) :
  Forall (λ chunk, chunk ≠ []) (yielded (yield_chunks chunks))
  ∧ concat (yielded (yield_chunks chunks)) = concat (default [] <$> chunks).
Proof.
  induction chunks as [|[[|c t]|] chunks [IH1 IH2]]; cbn; try done.
  split; [by constructor|]. by rewrite <- IH2.
Qed.

(** X15: [call_gemini_api_stream] yields no empty chunk and loses no text:
    the chunks it yields, put together, are the texts of all the chunks of
    the stream put together, and it ends with the exception the stream
    ended with, if any, after yielding what came before. *)
Theorem call_gemini_api_stream_yields {G : genai}
  (format_user_message : gmap string str → str) (self : GeminiService G)
  (system_prompt : str) (data : gmap string str) (api_key : option str)
  (thinking_budget : Z) :
  let stream :=
    generate_content_stream G (select_client self api_key) (model self)
      (format_user_message data) system_prompt in
  let result :=
    call_gemini_api_stream format_user_message self system_prompt data
      api_key thinking_budget in
  Forall (λ chunk, chunk ≠ []) (yielded result.1)
  ∧ concat (yielded result.1) = concat (default [] <$> stream.1)
  ∧ result.2 = stream.2.
Proof.
  cbv zeta. unfold call_gemini_api_stream. cbv zeta.
  destruct (generate_content_stream G _ _ _ _) as [chunks failure].
  cbn [fst snd].
  assert (∀ line evs tail,
            Forall (λ e, ∃ l, e = Printed l) tail →
            yielded (Printed line :: evs ++ tail) = yielded evs) as Hy.
  { intros line evs tail Ht. unfold yielded.
    change (Printed line :: evs ++ tail) with ([Printed line] ++ evs ++ tail).
    rewrite !omap_app.
    assert (omap (λ e, match e with
                       | Yielded chunk => Some chunk
                       | Printed _ => None
                       end) tail = []) as ->.
    { induction Ht as [|? ? [l ->] _ IH]; [done|]. by cbn. }
    by rewrite app_nil_r. }
  rewrite Hy by (destruct failure; repeat constructor; eauto).
  destruct (yielded_chunks chunks) as [H1 H2]. done.
Qed.

(** * Where the identifiers come from *)

Lemma after_keyword_suffix (kw s r : str) :
  after_keyword kw s = Some r → ∃ pre, s = pre ++ r.
Proof.
  unfold after_keyword. destruct (startswith kw s) eqn:Hkw; [|done].
  apply startswith_split in Hkw.
  destruct (drop (length kw) s) as [|c r0]; [done|].
  destruct (isspace c); [|done]. intros [= <-].
  exists (kw ++ c :: take_while isspace r0). rewrite Hkw at 1.
  rewrite <- app_assoc. cbn [app]. by rewrite take_drop_while.
Qed.

Lemma contains_sub_stripped (sub line : str) :
  (∃ pre post, strip line = pre ++ sub ++ post) →
  contains_sub sub line = true.
Proof.
  intros H. apply (contains_sub_strip_with isspace).
  by apply contains_sub_spec.
Qed.

(** What a line adds to the set is a piece of its text, or such a piece
    with its spaces and single quotes deleted. *)
Lemma line_ids_origin (line x : str) :
  x ∈ line_ids line →
  ∃ y, contains_sub y line = true ∧ (x = y ∨ x = normalize_label y).
Proof.
  unfold line_ids, explicit_id, quoted_label. cbv zeta.
  destruct (after_keyword _ (strip line)) as [r|] eqn:Hr.
  2:{ rewrite (left_id_L ∅ (∪)). by intros ?%not_elem_of_empty. }
  apply after_keyword_suffix in Hr as [pre Hpre].
  intros [Hx|Hx]%elem_of_union.
  - destruct r as [|c t]; [by apply not_elem_of_empty in Hx|].
    destruct (id_start c); [|by apply not_elem_of_empty in Hx].
    apply elem_of_singleton in Hx as ->.
    exists (c :: take_while id_char t). split; [|by left].
    apply contains_sub_stripped. exists pre, (drop_while id_char t).
    rewrite Hpre. cbn [app]. by rewrite take_drop_while.
  - destruct r as [|q [|c t]]; try (by apply not_elem_of_empty in Hx).
    destruct (_ && _); [|by apply not_elem_of_empty in Hx].
    destruct (drop_while not_dquote t) eqn:Hd;
      [by apply not_elem_of_empty in Hx|].
    exists (c :: take_while not_dquote t). split.
    + apply contains_sub_stripped.
      exists (pre ++ [q]), (drop_while not_dquote t).
      rewrite Hpre, <- app_assoc. cbn [app]. by rewrite take_drop_while.
    + rewrite normalize_label_code in Hx.
      apply elem_of_union in Hx as [Hx|Hx].
      * left. by apply elem_of_singleton in Hx.
      * right. destruct (truthy _); [|by apply not_elem_of_empty in Hx].
        by apply elem_of_singleton in Hx.
Qed.

(** X1: every identifier the first loop collects comes from the text of a
    line whose trimmed form starts with [subgraph]: it is a piece of that
    line, or such a piece with its spaces and single quotes deleted, and
    it is never empty.  A diagram without such a line gives the empty
    set. *)
Theorem identifiers_come_from_subgraph_lines (lines : list str) :
  ∃ subgraph_ids,
    for_each first_pass_body lines ∅ = Ok subgraph_ids
    ∧ (∀ x, x ∈ subgraph_ids →
         x ≠ []
         ∧ ∃ line y,
             line ∈ lines
             ∧ startswith (lit "subgraph") (strip line) = true
             ∧ contains_sub y line = true
             ∧ (x = y ∨ x = normalize_label y))
    ∧ (forallb (λ line, negb (startswith (lit "subgraph") (strip line))) lines
       = true → subgraph_ids = ∅).
Proof.
  exists (subgraph_ids_of lines). split; [|split].
  - rewrite first_pass_ok. by rewrite (left_id_L ∅ (∪)).
  - intros x (line & Hin & Hx)%elem_of_subgraph_ids_of. split.
    + intros ->. by apply line_ids_nonempty in Hx.
    + destruct (line_ids_origin line x Hx) as (y & Hy & Hxy).
      exists line, y. split; [done|].
      split; [by apply (line_ids_subgraph line x)|]. done.
  - intros Hall. apply set_eq. intros x.
    split; [|by intros ?%not_elem_of_empty].
    intros (line & Hin & Hx)%elem_of_subgraph_ids_of.
    apply line_ids_subgraph in Hx. rewrite forallb_forall in Hall.
    apply list_elem_of_In, Hall in Hin. by rewrite Hx in Hin.
Qed.
